(** * The RIV editor core engine ([src/renderer/types/index.ts])

    A shallow embedding of the scene graph, the keyframe animation system,
    the state machine and the exporter of the editor's core engine, with the
    properties of its specification stated and settled on the embedding.

    Modelling conventions.
    - A JavaScript [number] is a real number: the arithmetic of the engine is
      read exactly, without rounding, NaN or infinities.
    - A string is a sequence of bytes (UTF-8).
    - Objects live in a heap and are referred to by location, so that two
      references to one object observe each other's writes.  Tracks,
      animations, state machines and projects are passed as records: the
      engine functions modelled here read them or return the updated record.
    - Only own data properties are modelled, in insertion order.  A key that
      names a member inherited from a prototype (a class method such as
      [render], a built-in such as [toString]) reads as a missing property,
      and the rule that puts integer-like keys first in an enumeration is
      left out; no statement below depends on either.
    - A computation completes normally or abruptly and carries the heap in
      both cases, since a JavaScript exception does not undo the writes made
      before it.  The abrupt completions are the TypeError of the language,
      [OutOfModel] where a built-in behaviour is not covered (number and
      string conversions, writing the [length] of an array) and [OutOfFuel]
      where a bounded recursion through the heap ends early. *)

From Stdlib Require Import Reals Lra ZArith Lia Ascii String List Sorted.
From stdpp Require Import base option list strings pretty.

Set Default Proof Using "Type".

(** ** Values and the heap *)

Abbreviation loc := nat (only parsing).

Inductive value :=
| VUndefined
| VNull
| VBool (b : bool)
| VNum (x : R)
| VStr (s : string)
| VRef (l : loc).

#[global] Instance R_eq_dec : EqDecision R := Req_dec_T.
#[global] Instance value_eq_dec : EqDecision value.
Proof. solve_decision. Defined.

(** [a === b] on the values above. *)
Definition strict_eq (a b : value) : bool := bool_decide (a = b).

(** The classes of the engine, as [instanceof] sees them; [PlainObject] is an
    object literal, [ArrayObject] a JavaScript array. *)
Inductive classTag :=
| PlainObject | ArrayObject | RectangleClass | EllipseClass | PathClass | GroupClass.

#[global] Instance classTag_eq_dec : EqDecision classTag.
Proof. solve_decision. Defined.

(** A heap cell: the own properties in insertion order and, for an array,
    its elements ([None] is a hole). *)
Record cell := Cell {
  c_class : classTag;
  c_props : list (string * value);
  c_elems : list (option value)
}.

Abbreviation heap := (list cell) (only parsing).

(** ** Ordered association lists

    Own properties of an object and the entries of a JavaScript [Map] keep
    insertion order; writing an existing key replaces the value in place. *)

Section Assoc.
Context {V : Type}.

Fixpoint assoc_get (k : string) (m : list (string * V)) : option V :=
  match m with
  | [] => None
  | (k', v) :: m' => if String.eqb k' k then Some v else assoc_get k m'
  end.

Fixpoint assoc_set (k : string) (v : V) (m : list (string * V)) : list (string * V) :=
  match m with
  | [] => [(k, v)]
  | (k', v') :: m' =>
      if String.eqb k' k then (k, v) :: m' else (k', v') :: assoc_set k v m'
  end.

Definition assoc_has (k : string) (m : list (string * V)) : bool :=
  match assoc_get k m with Some _ => true | None => false end.
End Assoc.

(** ** Computations over the heap *)

Inductive error :=
| TypeError       (* the JavaScript exception *)
| OutOfModel      (* a built-in behaviour this embedding does not cover *)
| OutOfFuel.      (* the recursion bound of a heap traversal was reached *)

Inductive outcome (A : Type) :=
| Normal (a : A) (h : heap)
| Abrupt (e : error) (h : heap).
Arguments Normal {A} a h.
Arguments Abrupt {A} e h.

Definition M (A : Type) : Type := heap -> outcome A.

Definition ret {A} (a : A) : M A := fun h => Normal a h.
Definition throw {A} (e : error) : M A := fun h => Abrupt e h.
Definition bind {A B} (c : M A) (k : A -> M B) : M B :=
  fun h => match c h with
           | Normal a h' => k a h'
           | Abrupt e h' => Abrupt e h'
           end.

Declare Scope js_scope.
Delimit Scope js_scope with js.
Notation "'let*' x ':=' c 'in' k" := (bind c (fun x => k))
  (at level 10, x pattern, c at level 100, k at level 200) : js_scope.
Notation "c ';;' k" := (bind c (fun _ => k))
  (at level 100, k at level 200, right associativity) : js_scope.
Open Scope js_scope.

(** [for (const x of xs) body(x)] *)
Fixpoint for_each {A} (xs : list A) (body : A -> M unit) : M unit :=
  match xs with
  | [] => ret tt
  | x :: xs' => body x ;; for_each xs' body
  end.

Definition read_heap : M heap := fun h => Normal h h.

(** [new C(...)] and object and array literals allocate a fresh cell. *)
Definition alloc (c : cell) : M value :=
  fun h => Normal (VRef (length h)) (h ++ [c]).

Definition new_object (props : list (string * value)) : M value :=
  alloc (Cell PlainObject props []).

Definition new_array (elems : list value) : M value :=
  alloc (Cell ArrayObject [] (Some <$> elems)).

(** ** Property access *)

(** An array index is written in canonical decimal form. *)
Fixpoint digits_value (s : string) (acc : nat) : option nat :=
  match s with
  | EmptyString => Some acc
  | String c s' =>
      let n := Ascii.nat_of_ascii c in
      if (48 <=? n)%nat && (n <=? 57)%nat
      then digits_value s' (10 * acc + (n - 48))
      else None
  end.

Definition array_index (k : string) : option nat :=
  match k with
  | EmptyString => None
  | _ => match digits_value k 0 with
         | Some n => if String.eqb (pretty n) k then Some n else None
         | None => None
         end
  end.

Definition typeof (v : value) : string :=
  match v with
  | VUndefined => "undefined"
  | VNull => "object"
  | VBool _ => "boolean"
  | VNum _ => "number"
  | VStr _ => "string"
  | VRef _ => "object"
  end.

(** ToBoolean. *)
Definition truthy (v : value) : bool :=
  match v with
  | VUndefined | VNull => false
  | VBool b => b
  | VNum x => if Req_dec_T x 0 then false else true
  | VStr s => negb (String.eqb s "")
  | VRef _ => true
  end.

Definition cell_get (c : cell) (k : string) : value :=
  match c_class c, array_index k with
  | ArrayObject, Some i =>
      match c_elems c !! i with
      | Some (Some v) => v
      | _ => VUndefined
      end
  | ArrayObject, None =>
      if String.eqb k "length" then VNum (INR (length (c_elems c)))
      else default VUndefined (assoc_get k (c_props c))
  | _, _ => default VUndefined (assoc_get k (c_props c))
  end.

(** [v[k]]: reading a property of [undefined] or [null] throws; a boolean
    or a number has no own property; a string has its [length] and its
    characters, which are not modelled, and no other own property. *)
Definition get_prop (v : value) (k : string) : M value :=
  fun h =>
    match v with
    | VUndefined | VNull => Abrupt TypeError h
    | VBool _ | VNum _ => Normal VUndefined h
    | VStr _ =>
        match array_index k with
        | Some _ => Abrupt OutOfModel h
        | None => if String.eqb k "length" then Abrupt OutOfModel h
                  else Normal VUndefined h
        end
    | VRef l =>
        match h !! l with
        | Some c => Normal (cell_get c k) h
        | None => Abrupt OutOfModel h
        end
    end.

(** Writing element [i] of an array, growing it with holes when needed. *)
Definition elems_set (i : nat) (x : value) (es : list (option value)) : list (option value) :=
  if (i <? length es)%nat then <[i := Some x]> es
  else es ++ replicate (i - length es) None ++ [Some x].

Definition cell_set (c : cell) (k : string) (x : value) : option cell :=
  match c_class c, array_index k with
  | ArrayObject, Some i => Some (Cell (c_class c) (c_props c) (elems_set i x (c_elems c)))
  | ArrayObject, None =>
      if String.eqb k "length" then None
      else Some (Cell (c_class c) (assoc_set k x (c_props c)) (c_elems c))
  | _, _ => Some (Cell (c_class c) (assoc_set k x (c_props c)) (c_elems c))
  end.

(** [v[k] = x] in strict mode (class bodies and modules are strict code):
    assigning a property of a primitive, of [undefined] or of [null] throws a
    TypeError. *)
Definition set_prop (v : value) (k : string) (x : value) : M unit :=
  fun h =>
    match v with
    | VRef l =>
        match h !! l with
        | Some c =>
            match cell_set c k x with
            | Some c' => Normal tt (<[l := c']> h)
            | None => Abrupt OutOfModel h
            end
        | None => Abrupt OutOfModel h
        end
    | _ => Abrupt TypeError h
    end.

(** The keys a [for (const key in v)] loop visits: nothing for [null] and
    [undefined]; the elements present, then the properties, of an object. *)
Fixpoint present_indices (es : list (option value)) (i : nat) : list string :=
  match es with
  | [] => []
  | Some _ :: es' => pretty i :: present_indices es' (S i)
  | None :: es' => present_indices es' (S i)
  end.

Definition for_in_keys (v : value) : M (list string) :=
  fun h =>
    match v with
    | VRef l =>
        match h !! l with
        | Some c => Normal (present_indices (c_elems c) 0 ++ (fst <$> c_props c)) h
        | None => Abrupt OutOfModel h
        end
    | _ => Normal [] h
    end.

(** ** The animation system *)

Inductive EasingFunction :=
| Linear
| EaseIn
| EaseOut
| EaseInOut
| Bounce
| Elastic
| Bezier (x1 y1 x2 y2 : R).

Record Keyframe := mkKeyframe {
  kf_time : R;
  kf_value : value;
  kf_easing : EasingFunction
}.

Record AnimationTrack := mkTrack {
  property : string;
  keyframes : list Keyframe
}.

Section Animation.
Local Open Scope R_scope.

(** [AnimationTrack.applyEasing] *)
Definition applyEasing (t : R) (easing : EasingFunction) : R :=
  match easing with
  | Linear => t
  | EaseIn => t * t
  | EaseOut => t * (2 - t)
  | EaseInOut => if Rlt_dec t 0.5 then 2 * t * t else -1 + (4 - 2 * t) * t
  | Bounce =>
      if Rlt_dec t (1 / 2.75) then 7.5625 * t * t
      else if Rlt_dec t (2 / 2.75) then
        let t := t - 1.5 / 2.75 in 7.5625 * t * t + 0.75
      else if Rlt_dec t (2.5 / 2.75) then
        let t := t - 2.25 / 2.75 in 7.5625 * t * t + 0.9375
      else
        let t := t - 2.625 / 2.75 in 7.5625 * t * t + 0.984375
  | Elastic => Rpower 2 (-10 * t) * sin ((t - 0.075) * (2 * PI) / 0.3) + 1
  | Bezier _ _ _ _ => t
  end.

(** The body of the [for (const key in from)] loop of [interpolate]. *)
Definition interpolate_key (from to result : value) (progress : R) (key : string) : M unit :=
  let* fk := get_prop from key in
  match fk with
  | VNum a =>
      let* tk := get_prop to key in
      match tk with
      | VNum b => set_prop result key (VNum (a + (b - a) * progress))
      | _ => ret tt
      end
  | _ => ret tt
  end.

(** [AnimationTrack.interpolate] *)
Definition interpolate (from to : value) (progress : R) : M value :=
  match from, to with
  | VNum a, VNum b => ret (VNum (a + (b - a) * progress))
  | _, _ =>
      if String.eqb (typeof from) "object" && String.eqb (typeof to) "object" then
        let* result := new_object [] in
        let* keys := for_in_keys from in
        for_each keys (interpolate_key from to result progress) ;;
        ret result
      else
        ret (if Rlt_dec progress 0.5 then from else to)
  end.

(** The search loop of [getValueAtTime]: [i] is the index of the head of
    [kfs]; the result is [(beforeIndex, afterIndex)], with [-1] for an
    index that was never set. *)
Fixpoint scanKeyframes (kfs : list Keyframe) (i : Z) (time : R) (beforeIndex : Z) : Z * Z :=
  match kfs with
  | [] => (beforeIndex, (-1)%Z)
  | kf :: rest =>
      let beforeIndex := if Rle_dec (kf_time kf) time then i else beforeIndex in
      if Rge_dec (kf_time kf) time then (beforeIndex, i)
      else scanKeyframes rest (i + 1)%Z time beforeIndex
  end.

(** [keyframes[i]]; reading a field of a missing element throws. *)
Definition keyframe_at (kfs : list Keyframe) (i : Z) : M Keyframe :=
  match (if (i <? 0)%Z then None else kfs !! Z.to_nat i) with
  | Some kf => ret kf
  | None => throw TypeError
  end.

(** [AnimationTrack.getValueAtTime]; [VNull] is the [null] result. *)
Definition getValueAtTime (track : AnimationTrack) (time : R) : M value :=
  let kfs := keyframes track in
  if (length kfs =? 0)%nat then ret VNull
  else
    let '(beforeIndex, afterIndex) := scanKeyframes kfs 0 time (-1)%Z in
    if (beforeIndex =? -1)%Z then
      let* kf := keyframe_at kfs 0 in ret (kf_value kf)
    else if (afterIndex =? -1)%Z then
      let* kf := keyframe_at kfs (Z.of_nat (length kfs) - 1) in ret (kf_value kf)
    else if (beforeIndex =? afterIndex)%Z then
      let* kf := keyframe_at kfs beforeIndex in ret (kf_value kf)
    else
      let* before := keyframe_at kfs beforeIndex in
      let* after := keyframe_at kfs afterIndex in
      let progress := (time - kf_time before) / (kf_time after - kf_time before) in
      let easedProgress := applyEasing progress (kf_easing before) in
      interpolate (kf_value before) (kf_value after) easedProgress.

(** [AnimationTrack.addKeyframe]: insert before the first keyframe with a
    later time, else append. *)
Fixpoint insertKeyframe (kf : Keyframe) (kfs : list Keyframe) : list Keyframe :=
  match kfs with
  | [] => [kf]
  | k :: rest =>
      if Rgt_dec (kf_time k) (kf_time kf) then kf :: k :: rest
      else k :: insertKeyframe kf rest
  end.

Definition addKeyframe (track : AnimationTrack) (time : R) (v : value)
    (easing : EasingFunction) : AnimationTrack :=
  mkTrack (property track) (insertKeyframe (mkKeyframe time v easing) (keyframes track)).

(** The data model's order on a track: times never decrease along the
    keyframe list; strictly ordered when they always increase. *)
Definition time_ordered (kfs : list Keyframe) : Prop :=
  StronglySorted (fun a b => kf_time a <= kf_time b) kfs.

Definition strictly_time_ordered (kfs : list Keyframe) : Prop :=
  StronglySorted (fun a b => kf_time a < kf_time b) kfs.

(** The track of the specification's scenario:
    [{t:0, v:0, ease:linear}, {t:100, v:10, ease:ease-in}]. *)
Definition scenario_track : AnimationTrack :=
  addKeyframe
    (addKeyframe (mkTrack "transform.position.x" []) 0 (VNum 0) Linear)
    100 (VNum 10) EaseIn.

(** Two records with a numeric and a textual field each. *)
Definition two_records : heap :=
  [ Cell PlainObject [("x", VNum 0); ("label", VStr "a")] [];
    Cell PlainObject [("x", VNum 10); ("label", VStr "b")] [] ].

(** Two keyframes inserted at the same time. *)
Definition tied_track : AnimationTrack :=
  addKeyframe (addKeyframe (mkTrack "opacity" []) 10 (VNum 1) Linear) 10 (VNum 2) Linear.
End Animation.

(** ** The state machine *)

(** Parameters and condition values are primitives (the data model has
    booleans, numbers and strings); [PUndefined] is what [Map.get] returns
    for a parameter that was never set. *)
Inductive primitive :=
| PUndefined
| PNull
| PBool (b : bool)
| PNum (x : R)
| PStr (s : string).

#[global] Instance primitive_eq_dec : EqDecision primitive.
Proof. solve_decision. Defined.

(** ToNumber.  [NaN] is the not-a-number result; converting a string needs
    the numeric-literal grammar, which is not modelled. *)
Inductive numeric :=
| Num (x : R)
| NaN
| NotModelled.

Definition ToNumber (v : primitive) : numeric :=
  match v with
  | PUndefined => NaN
  | PNull => Num 0
  | PBool true => Num 1
  | PBool false => Num 0
  | PNum x => Num x
  | PStr _ => NotModelled
  end.

(** [a < b] and [a <= b]: two strings compare by their code units, other
    operands as numbers; a comparison with NaN is false.  [None] stands for
    a comparison outside the model. *)
Definition js_lt (a b : primitive) : option bool :=
  match a, b with
  | PStr s1, PStr s2 => Some (String.ltb s1 s2)
  | _, _ =>
      match ToNumber a, ToNumber b with
      | NaN, _ | _, NaN => Some false
      | Num x, Num y => Some (if Rlt_dec x y then true else false)
      | _, _ => None
      end
  end.

Definition js_le (a b : primitive) : option bool :=
  match a, b with
  | PStr s1, PStr s2 => Some (negb (String.ltb s2 s1))
  | _, _ =>
      match ToNumber a, ToNumber b with
      | NaN, _ | _, NaN => Some false
      | Num x, Num y => Some (if Rle_dec x y then true else false)
      | _, _ => None
      end
  end.

Record StateMachineState := mkState {
  state_id : string;
  state_name : string;
  animationId : option string;
  position : R * R
}.

Record Condition := mkCondition {
  cond_type : string;
  parameter : string;
  operator : string;
  cond_value : primitive
}.

Record Trigger := mkTrigger {
  trigger_type : string;
  targetId : option string;
  key : option string;
  eventName : option string
}.

Record StateTransition := mkTransition {
  from : string;
  to : string;
  conditions : list Condition;
  triggers : list Trigger
}.

(** The argument of [checkTransitions]. *)
Record Event := mkEvent {
  event_type : string;
  event_target : option string;
  event_key : option string
}.

Record StateMachine := mkStateMachine {
  sm_id : string;
  sm_name : string;
  states : list (string * StateMachineState);
  transitions : list StateTransition;
  parameters : list (string * primitive);
  currentState : string;
  entryState : string
}.

Definition set_currentState (sm : StateMachine) (s : string) : StateMachine :=
  mkStateMachine (sm_id sm) (sm_name sm) (states sm) (transitions sm)
    (parameters sm) s (entryState sm).

(** [new StateMachine(id, name)] *)
Definition newStateMachine (id name : string) : StateMachine :=
  mkStateMachine id name [] [] [] "entry" "entry".

(** [StateMachine.addState] *)
Definition addState (sm : StateMachine) (id name : string) (anim : option string)
    : StateMachine :=
  mkStateMachine (sm_id sm) (sm_name sm)
    (assoc_set id (mkState id name anim (0%R, 0%R)) (states sm))
    (transitions sm) (parameters sm) (currentState sm) (entryState sm).

(** [StateMachine.addTransition] *)
Definition addTransition (sm : StateMachine) (from to : string)
    (triggers : list Trigger) (conditions : list Condition) : StateMachine :=
  mkStateMachine (sm_id sm) (sm_name sm) (states sm)
    (transitions sm ++ [mkTransition from to conditions triggers])
    (parameters sm) (currentState sm) (entryState sm).

(** [StateMachine.setParameter] *)
Definition setParameter (sm : StateMachine) (name : string) (v : primitive)
    : StateMachine :=
  mkStateMachine (sm_id sm) (sm_name sm) (states sm) (transitions sm)
    (assoc_set name v (parameters sm)) (currentState sm) (entryState sm).

(** A string-valued optional field is truthy when present and not empty. *)
Definition truthy_field (f : option string) : bool :=
  match f with
  | Some s => negb (String.eqb s "")
  | None => false
  end.

Definition same_field (a b : option string) : bool := bool_decide (a = b).

(** The callback of [transition.triggers.some(...)]. *)
Definition triggerMatches (event : Event) (trigger : Trigger) : bool :=
  if negb (String.eqb (trigger_type trigger) (event_type event)) then false
  else if truthy_field (targetId trigger)
          && negb (same_field (targetId trigger) (event_target event)) then false
  else if truthy_field (key trigger)
          && negb (same_field (key trigger) (event_key event)) then false
  else true.

(** The callback of [transition.conditions.every(...)]. *)
Definition evalCondition (params : list (string * primitive)) (condition : Condition)
    : option bool :=
  let value := default PUndefined (assoc_get (parameter condition) params) in
  let cv := cond_value condition in
  if String.eqb (operator condition) "==" then Some (bool_decide (value = cv))
  else if String.eqb (operator condition) "!=" then Some (negb (bool_decide (value = cv)))
  else if String.eqb (operator condition) ">" then js_lt cv value
  else if String.eqb (operator condition) "<" then js_lt value cv
  else if String.eqb (operator condition) ">=" then js_le cv value
  else if String.eqb (operator condition) "<=" then js_le value cv
  else Some false.

(** [Array.prototype.every], stopping at the first element that fails. *)
Fixpoint every {A} (f : A -> option bool) (xs : list A) : option bool :=
  match xs with
  | [] => Some true
  | x :: xs' =>
      match f x with
      | Some true => every f xs'
      | r => r
      end
  end.

(** The loop of [checkTransitions] over the transitions still to visit:
    [Some (Some id)] when a transition to [id] fires, [Some None] when the
    loop ends, [None] when a condition is outside the model. *)
Fixpoint scanTransitions (sm : StateMachine) (event : option Event)
    (ts : list StateTransition) : option (option string) :=
  match ts with
  | [] => Some None
  | transition :: rest =>
      if negb (String.eqb (from transition) (currentState sm)) then
        scanTransitions sm event rest
      else
        let triggered :=
          match event with
          | Some ev =>
              if (0 <? length (triggers transition))%nat
              then existsb (triggerMatches ev) (triggers transition)
              else true
          | None => true
          end in
        if negb triggered then scanTransitions sm event rest
        else if (0 <? length (conditions transition))%nat then
          match every (evalCondition (parameters sm)) (conditions transition) with
          | Some true => Some (Some (to transition))
          | Some false => scanTransitions sm event rest
          | None => None
          end
        else Some (Some (to transition))
  end.

(** [StateMachine.checkTransitions]: the machine after the call and the
    returned id ([None] is [null]). *)
Definition checkTransitions (sm : StateMachine) (event : option Event)
    : option (StateMachine * option string) :=
  match scanTransitions sm event (transitions sm) with
  | Some (Some id) => Some (set_currentState sm id, Some id)
  | Some None => Some (sm, None)
  | None => None
  end.

(** The machines the mutators reach from a new machine. *)
Inductive reachable : StateMachine -> Prop :=
| reach_new id name : reachable (newStateMachine id name)
| reach_addState sm id name anim :
    reachable sm -> reachable (addState sm id name anim)
| reach_addTransition sm from to triggers conditions :
    reachable sm -> reachable (addTransition sm from to triggers conditions)
| reach_setParameter sm name v :
    reachable sm -> reachable (setParameter sm name v)
| reach_checkTransitions sm event sm' result :
    reachable sm -> checkTransitions sm event = Some (sm', result) -> reachable sm'.

(** When a transition fires, in the words of the specification: its source
    is the current state, its trigger list is empty or holds a trigger
    matching the given event, and its condition list is empty or holds only
    conditions that evaluate to true. *)
Definition trigger_matches_event (trigger : Trigger) (event : Event) : Prop :=
  trigger_type trigger = event_type event /\
  (forall id, targetId trigger = Some id -> event_target event = Some id) /\
  (forall k, key trigger = Some k -> event_key event = Some k).

Definition conditions_hold (sm : StateMachine) (t : StateTransition) : Prop :=
  conditions t = [] \/
  Forall (fun c => evalCondition (parameters sm) c = Some true) (conditions t).

Definition fires_as_specified (sm : StateMachine) (event : option Event)
    (t : StateTransition) : Prop :=
  from t = currentState sm /\
  (triggers t = [] \/
   exists trigger ev, In trigger (triggers t) /\ event = Some ev /\
                      trigger_matches_event trigger ev) /\
  conditions_hold sm t.

(** When a transition fires, as the code decides it: the triggers are
    consulted only when an event is given, and a trigger constrains the
    target or the key only by a non-empty [targetId] or [key]. *)
Definition trigger_accepts (trigger : Trigger) (event : Event) : Prop :=
  trigger_type trigger = event_type event /\
  (forall id, targetId trigger = Some id -> id <> "" -> event_target event = Some id) /\
  (forall k, key trigger = Some k -> k <> "" -> event_key event = Some k).

Definition fires (sm : StateMachine) (event : option Event) (t : StateTransition) : Prop :=
  from t = currentState sm /\
  (event = None \/ triggers t = [] \/
   exists trigger ev, In trigger (triggers t) /\ event = Some ev /\
                      trigger_accepts trigger ev) /\
  conditions_hold sm t.

(** Every condition of the machine compares operands the model covers. *)
Definition conditions_modelled (sm : StateMachine) : Prop :=
  Forall (fun t => Forall (fun c => evalCondition (parameters sm) c <> None) (conditions t))
    (transitions sm).

(** A machine with one click-triggered transition, and the machine with a
    transition to a state that was never added. *)
Definition click_machine : StateMachine :=
  addTransition
    (addState (addState (newStateMachine "sm" "Machine") "entry" "Entry" None)
       "pressed" "Pressed" None)
    "entry" "pressed" [mkTrigger "click" None None None] [].

Definition ghost_machine : StateMachine :=
  addTransition (addState (newStateMachine "sm" "Machine") "entry" "Entry" None)
    "entry" "ghost" [] [].

(** ** The scene graph *)

Definition class_of (v : value) : M (option classTag) :=
  fun h =>
    match v with
    | VRef l =>
        match h !! l with
        | Some c => Normal (Some (c_class c)) h
        | None => Abrupt OutOfModel h
        end
    | _ => Normal None h
    end.

(** [a + b] on two strings; the other operand types go through number and
    string conversions that are not modelled. *)
Definition js_add (a b : value) : M value :=
  match a, b with
  | VStr s1, VStr s2 => ret (VStr (s1 ++ s2))
  | _, _ => throw OutOfModel
  end.

(** Numbering the elements of an array that are present. *)
Fixpoint indexed_elems (es : list (option value)) (i : nat) : list (string * value) :=
  match es with
  | [] => []
  | Some v :: es' => (pretty i, v) :: indexed_elems es' (S i)
  | None :: es' => indexed_elems es' (S i)
  end.

(** [{ ...v }]: a fresh object with the own enumerable properties of [v];
    the values are copied as they are, references included. *)
Definition object_spread (v : value) : M value :=
  match v with
  | VRef l =>
      let* h := read_heap in
      match h !! l with
      | Some c => new_object (indexed_elems (c_elems c) 0 ++ c_props c)
      | None => throw OutOfModel
      end
  | VStr _ => throw OutOfModel
  | _ => new_object []
  end.

(** The array methods the engine calls.  Calling a method of [undefined],
    [null] or of a value without that method throws a TypeError. *)
Definition with_array {A} (arr : value) (f : loc -> cell -> M A) : M A :=
  match arr with
  | VRef l =>
      let* h := read_heap in
      match h !! l with
      | Some c =>
          match c_class c with
          | ArrayObject => f l c
          | _ => throw TypeError
          end
      | None => throw OutOfModel
      end
  | _ => throw TypeError
  end.

Definition write_cell (l : loc) (c : cell) : M unit :=
  fun h => Normal tt (<[l := c]> h).

(** [arr.push(x)] *)
Definition array_push (arr : value) (x : value) : M unit :=
  with_array arr (fun l c =>
    write_cell l (Cell (c_class c) (c_props c) (c_elems c ++ [Some x]))).

(** The index of the first element that is [=== x], from index [i] on. *)
Fixpoint index_from (es : list (option value)) (x : value) (i : Z) : Z :=
  match es with
  | [] => (-1)%Z
  | Some v :: es' => if strict_eq v x then i else index_from es' x (i + 1)%Z
  | None :: es' => index_from es' x (i + 1)%Z
  end.

(** [arr.indexOf(x)] *)
Definition array_indexOf (arr : value) (x : value) : M Z :=
  with_array arr (fun _ c => ret (index_from (c_elems c) x 0)).

(** [arr[i]] for a number [i] that is a valid index; an element that is
    missing reads as [undefined]. *)
Definition array_get (arr : value) (i : Z) : M value :=
  with_array arr (fun _ c =>
    ret (match (if (i <? 0)%Z then None else c_elems c !! Z.to_nat i) with
         | Some (Some v) => v
         | _ => VUndefined
         end)).

(** [arr.splice(i, 1)] for [0 <= i]. *)
Definition array_splice1 (arr : value) (i : Z) : M unit :=
  with_array arr (fun l c =>
    write_cell l (Cell (c_class c) (c_props c) (delete (Z.to_nat i) (c_elems c)))).

(** The elements [arr.forEach] visits. *)
Definition array_elements (arr : value) : M (list value) :=
  with_array arr (fun _ c => ret (omap (fun e => e) (c_elems c))).

(** The constructor of [Shape], run on the object [this] that [new]
    allocated. *)
Definition Shape_constructor (this : value) (id name : string) : M unit :=
  set_prop this "parent" VNull ;;
  set_prop this "id" (VStr id) ;;
  set_prop this "name" (VStr name) ;;
  let* position := new_object [("x", VNum 0); ("y", VNum 0)] in
  let* scale := new_object [("x", VNum 1); ("y", VNum 1)] in
  let* pivot := new_object [("x", VNum 0); ("y", VNum 0)] in
  let* transform := new_object [("position", position); ("scale", scale);
                                ("rotation", VNum 0); ("pivot", pivot)] in
  set_prop this "transform" transform ;;
  let* color := new_object [("r", VNum 128); ("g", VNum 128); ("b", VNum 128);
                            ("a", VNum 1)] in
  let* fill := new_object [("type", VStr "solid"); ("color", color)] in
  set_prop this "fill" fill ;;
  set_prop this "stroke" VNull ;;
  set_prop this "opacity" (VNum 1) ;;
  set_prop this "visible" (VBool true) ;;
  set_prop this "locked" (VBool false).

(** [new Rectangle(id, name, width, height)] *)
Definition new_Rectangle (id name : string) (width height : value) : M value :=
  let* this := alloc (Cell RectangleClass [] []) in
  Shape_constructor this id name ;;
  set_prop this "width" width ;;
  set_prop this "height" height ;;
  set_prop this "cornerRadius" (VNum 0) ;;
  ret this.

(** [new Ellipse(id, name, radiusX, radiusY)] *)
Definition new_Ellipse (id name : string) (radiusX radiusY : value) : M value :=
  let* this := alloc (Cell EllipseClass [] []) in
  Shape_constructor this id name ;;
  set_prop this "radiusX" radiusX ;;
  set_prop this "radiusY" radiusY ;;
  ret this.

(** [new Path(id, name, pathData)] *)
Definition new_Path (id name : string) (pathData : value) : M value :=
  let* this := alloc (Cell PathClass [] []) in
  Shape_constructor this id name ;;
  set_prop this "pathData" pathData ;;
  ret this.

(** [new Group(id, name)] *)
Definition new_Group (id name : string) : M value :=
  let* this := alloc (Cell GroupClass [] []) in
  Shape_constructor this id name ;;
  let* children := new_array [] in
  set_prop this "children" children ;;
  ret this.

(** [Group.addChild] *)
Definition addChild (this shape : value) : M unit :=
  set_prop shape "parent" this ;;
  let* children := get_prop this "children" in
  array_push children shape.

(** [Group.removeChild] *)
Definition removeChild (this shape : value) : M unit :=
  let* children := get_prop this "children" in
  let* index := array_indexOf children shape in
  if (index >? -1)%Z then
    let* child := array_get children index in
    set_prop child "parent" VNull ;;
    let* children := get_prop this "children" in
    array_splice1 children index
  else ret tt.

(** The display-name suffix of a clone (" 副本": a space and the two
    characters of "copy", in UTF-8). *)
Definition copy_suffix : string :=
  String (Ascii.ascii_of_nat 32)
    (String (Ascii.ascii_of_nat 229) (String (Ascii.ascii_of_nat 137)
    (String (Ascii.ascii_of_nat 175) (String (Ascii.ascii_of_nat 230)
    (String (Ascii.ascii_of_nat 156) (String (Ascii.ascii_of_nat 172) EmptyString)))))).

(** [cloned.stroke = this.stroke ? { ...this.stroke } : null] *)
Definition clone_stroke (this cloned : value) : M unit :=
  let* stroke := get_prop this "stroke" in
  let* copy := (if truthy stroke then object_spread stroke else ret VNull) in
  set_prop cloned "stroke" copy.

(** [Rectangle.clone] *)
Definition Rectangle_clone (this : value) : M value :=
  let* id := get_prop this "id" in
  let* id' := js_add id (VStr "_clone") in
  let* name := get_prop this "name" in
  let* name' := js_add name (VStr copy_suffix) in
  let* width := get_prop this "width" in
  let* height := get_prop this "height" in
  match id', name' with
  | VStr id', VStr name' =>
      let* cloned := new_Rectangle id' name' width height in
      let* transform := get_prop this "transform" in
      let* transform' := object_spread transform in
      set_prop cloned "transform" transform' ;;
      let* fill := get_prop this "fill" in
      let* fill' := object_spread fill in
      set_prop cloned "fill" fill' ;;
      clone_stroke this cloned ;;
      let* opacity := get_prop this "opacity" in
      set_prop cloned "opacity" opacity ;;
      let* cornerRadius := get_prop this "cornerRadius" in
      set_prop cloned "cornerRadius" cornerRadius ;;
      ret cloned
  | _, _ => throw OutOfModel
  end.

(** [Ellipse.clone] *)
Definition Ellipse_clone (this : value) : M value :=
  let* id := get_prop this "id" in
  let* id' := js_add id (VStr "_clone") in
  let* name := get_prop this "name" in
  let* name' := js_add name (VStr copy_suffix) in
  let* radiusX := get_prop this "radiusX" in
  let* radiusY := get_prop this "radiusY" in
  match id', name' with
  | VStr id', VStr name' =>
      let* cloned := new_Ellipse id' name' radiusX radiusY in
      let* transform := get_prop this "transform" in
      let* transform' := object_spread transform in
      set_prop cloned "transform" transform' ;;
      let* fill := get_prop this "fill" in
      let* fill' := object_spread fill in
      set_prop cloned "fill" fill' ;;
      clone_stroke this cloned ;;
      let* opacity := get_prop this "opacity" in
      set_prop cloned "opacity" opacity ;;
      ret cloned
  | _, _ => throw OutOfModel
  end.

(** [Path.clone] *)
Definition Path_clone (this : value) : M value :=
  let* id := get_prop this "id" in
  let* id' := js_add id (VStr "_clone") in
  let* name := get_prop this "name" in
  let* name' := js_add name (VStr copy_suffix) in
  let* pathData := get_prop this "pathData" in
  match id', name' with
  | VStr id', VStr name' =>
      let* cloned := new_Path id' name' pathData in
      let* transform := get_prop this "transform" in
      let* transform' := object_spread transform in
      set_prop cloned "transform" transform' ;;
      let* fill := get_prop this "fill" in
      let* fill' := object_spread fill in
      set_prop cloned "fill" fill' ;;
      clone_stroke this cloned ;;
      let* opacity := get_prop this "opacity" in
      set_prop cloned "opacity" opacity ;;
      ret cloned
  | _, _ => throw OutOfModel
  end.

(** [shape.clone()], dispatched on the class of [shape]; the [GroupClass]
    case is [Group.clone].  [fuel] bounds the depth of the recursion through
    the children ([forEach] never sees a write of its callback here: the
    callback only writes to the clone). *)
Fixpoint clone (fuel : nat) (this : value) : M value :=
  match fuel with
  | O => throw OutOfFuel
  | S fuel' =>
      let* cls := class_of this in
      match cls with
      | Some RectangleClass => Rectangle_clone this
      | Some EllipseClass => Ellipse_clone this
      | Some PathClass => Path_clone this
      | Some GroupClass =>
          let* id := get_prop this "id" in
          let* id' := js_add id (VStr "_clone") in
          let* name := get_prop this "name" in
          let* name' := js_add name (VStr copy_suffix) in
          match id', name' with
          | VStr id', VStr name' =>
              let* cloned := new_Group id' name' in
              let* transform := get_prop this "transform" in
              let* transform' := object_spread transform in
              set_prop cloned "transform" transform' ;;
              let* opacity := get_prop this "opacity" in
              set_prop cloned "opacity" opacity ;;
              let* children := get_prop this "children" in
              let* elements := array_elements children in
              for_each elements (fun child =>
                let* child' := clone fuel' child in
                addChild cloned child') ;;
              ret cloned
          | _, _ => throw OutOfModel
          end
      | _ => throw TypeError
      end
  end.

(** ** Applying an animation to a shape *)

Record Animation := mkAnimation {
  anim_id : string;
  anim_name : string;
  duration : R;
  tracks : list (string * AnimationTrack);
  loop : string
}.

(** [new Animation(id, name, duration)] *)
Definition newAnimation (id name : string) (duration : R) : Animation :=
  mkAnimation id name duration [] "loop".

(** [Animation.addTrack]; the new track is the one stored under
    [property]. *)
Definition addTrack (a : Animation) (property : string) : Animation :=
  mkAnimation (anim_id a) (anim_name a) (duration a)
    (assoc_set property (mkTrack property []) (tracks a)) (loop a).

(** [path.split('.')] *)
Fixpoint split_dots (s : string) (current : string) : list string :=
  match s with
  | EmptyString => [current]
  | String c s' =>
      if Ascii.eqb c "."%char then current :: split_dots s' ""
      else split_dots s' (current ++ String c "")
  end.

(** The loop and the final assignment of [setPropertyValue], on the parts
    still to walk. *)
Fixpoint walk_parts (current : value) (parts : list string) (v : value) : M unit :=
  match parts with
  | [] => set_prop current "undefined" v
  | [last] => set_prop current last v
  | part :: rest =>
      let* found := get_prop current part in
      (if negb (truthy found) then
         let* fresh := new_object [] in set_prop current part fresh
       else ret tt) ;;
      let* next := get_prop current part in
      walk_parts next rest v
  end.

(** [Animation.setPropertyValue] *)
Definition setPropertyValue (obj : value) (path : string) (v : value) : M unit :=
  walk_parts obj (split_dots path "") v.

(** [Animation.applyToShape] *)
Definition applyToShape (a : Animation) (shape : value) (time : R) : M unit :=
  for_each (tracks a) (fun '(property, track) =>
    let* v := getValueAtTime track time in
    if negb (strict_eq v VNull) then setPropertyValue shape property v
    else ret tt).

(** ** The exporter *)

(** The tree [JSON.stringify] writes out. *)
#[warnings="-register-all"]
Inductive json :=
| JNull
| JBool (b : bool)
| JNum (x : R)
| JStr (s : string)
| JArr (items : list json)
| JObj (fields : list (string * json)).

Record Artboard := mkArtboard {
  ab_id : string;
  ab_name : string;
  ab_width : R;
  ab_height : R;
  shapes : list value
}.

Record Asset := mkAsset {
  asset_id : string;
  asset_name : string;
  asset_type : string;
  data : list Byte.byte
}.

Record RivProject := mkProject {
  version : string;
  artboards : list Artboard;
  animations : list Animation;
  stateMachines : list StateMachine;
  assets : list Asset
}.

(** All the elements, when each one is there. *)
Fixpoint all_some {A} (xs : list (option A)) : option (list A) :=
  match xs with
  | [] => Some []
  | Some x :: xs' => option_map (cons x) (all_some xs')
  | None :: _ => None
  end.

(** What [JSON.stringify] writes for the value [v] of heap [h]: a property
    holding [undefined] is left out, a missing or [undefined] array element
    is written as [null].  [None] when [fuel] nested levels do not reach
    the leaves, as on a cyclic value, for which [JSON.stringify] throws. *)
Fixpoint snapshot (fuel : nat) (h : heap) (v : value) : option json :=
  match v with
  | VUndefined => None
  | VNull => Some JNull
  | VBool b => Some (JBool b)
  | VNum x => Some (JNum x)
  | VStr s => Some (JStr s)
  | VRef l =>
      match fuel with
      | O => None
      | S fuel' =>
          match h !! l with
          | None => None
          | Some c =>
              match c_class c with
              | ArrayObject =>
                  option_map JArr
                    (all_some (map (fun e =>
                       match e with
                       | None | Some VUndefined => Some JNull
                       | Some x => snapshot fuel' h x
                       end) (c_elems c)))
              | _ =>
                  option_map JObj
                    (all_some (map (fun '(k, x) =>
                       option_map (pair k) (snapshot fuel' h x))
                       (filter (fun kv => kv.2 <> VUndefined) (c_props c))))
              end
          end
      end
  end.

(** One property of an object literal that is about to be written out. *)
Definition json_field (fuel : nat) (h : heap) (shape : value) (k : string)
    : option (list (string * json)) :=
  match get_prop shape k h with
  | Normal VUndefined _ => Some []
  | Normal x _ => option_map (fun j => [(k, j)]) (snapshot fuel h x)
  | Abrupt _ _ => None
  end.

Definition json_fields (fuel : nat) (h : heap) (shape : value) (ks : list string)
    : option (list (string * json)) :=
  option_map (@concat _) (all_some (map (json_field fuel h shape) ks)).

Definition is_instance (h : heap) (shape : value) (cls : classTag) : bool :=
  match shape with
  | VRef l =>
      match h !! l with
      | Some c => bool_decide (c_class c = cls)
      | None => false
      end
  | _ => false
  end.

(** [RivExporter.serializeShape], as written out by [JSON.stringify]. *)
Definition serializeShape (fuel : nat) (h : heap) (shape : value) : option json :=
  match json_fields fuel h shape ["id"; "name"; "transform"; "opacity"; "visible"] with
  | None => None
  | Some base =>
      if is_instance h shape RectangleClass then
        option_map (fun rest => JObj (base ++ [("type", JStr "rectangle")] ++ rest))
          (json_fields fuel h shape ["width"; "height"; "cornerRadius"; "fill"; "stroke"])
      else if is_instance h shape EllipseClass then
        option_map (fun rest => JObj (base ++ [("type", JStr "ellipse")] ++ rest))
          (json_fields fuel h shape ["radiusX"; "radiusY"; "fill"; "stroke"])
      else if is_instance h shape PathClass then
        option_map (fun rest => JObj (base ++ [("type", JStr "path")] ++ rest))
          (json_fields fuel h shape ["pathData"; "fill"; "stroke"])
      else Some (JObj base)
  end.

(** [RivExporter.serializeArtboard] *)
Definition serializeArtboard (fuel : nat) (h : heap) (artboard : Artboard) : option json :=
  option_map (fun shapes =>
    JObj [("id", JStr (ab_id artboard)); ("name", JStr (ab_name artboard));
          ("width", JNum (ab_width artboard)); ("height", JNum (ab_height artboard));
          ("shapes", JArr shapes)])
    (all_some (map (serializeShape fuel h) (shapes artboard))).

Definition easing_json (e : EasingFunction) : json :=
  match e with
  | Linear => JStr "linear"
  | EaseIn => JStr "ease-in"
  | EaseOut => JStr "ease-out"
  | EaseInOut => JStr "ease-in-out"
  | Bounce => JStr "bounce"
  | Elastic => JStr "elastic"
  | Bezier a b c d => JObj [("bezier", JArr [JNum a; JNum b; JNum c; JNum d])]
  end.

Definition keyframe_json (fuel : nat) (h : heap) (kf : Keyframe) : option json :=
  match kf_value kf with
  | VUndefined =>
      Some (JObj [("time", JNum (kf_time kf)); ("easing", easing_json (kf_easing kf))])
  | v =>
      option_map (fun j =>
        JObj [("time", JNum (kf_time kf)); ("value", j);
              ("easing", easing_json (kf_easing kf))])
        (snapshot fuel h v)
  end.

(** [RivExporter.serializeAnimation]: the tracks in the insertion order of
    the map. *)
Definition serializeAnimation (fuel : nat) (h : heap) (animation : Animation)
    : option json :=
  option_map (fun tracks =>
    JObj [("id", JStr (anim_id animation)); ("name", JStr (anim_name animation));
          ("duration", JNum (duration animation)); ("loop", JStr (loop animation));
          ("tracks", JArr tracks)])
    (all_some (map (fun '(property, track) =>
       option_map (fun kfs => JObj [("property", JStr property); ("keyframes", JArr kfs)])
         (all_some (map (keyframe_json fuel h) (keyframes track))))
       (tracks animation))).

Definition optional_field (k : string) (f : option string) : list (string * json) :=
  match f with
  | Some s => [(k, JStr s)]
  | None => []
  end.

Definition primitive_field (k : string) (v : primitive) : list (string * json) :=
  match v with
  | PUndefined => []
  | PNull => [(k, JNull)]
  | PBool b => [(k, JBool b)]
  | PNum x => [(k, JNum x)]
  | PStr s => [(k, JStr s)]
  end.

Definition state_json (s : StateMachineState) : json :=
  JObj ([("id", JStr (state_id s)); ("name", JStr (state_name s))]
        ++ optional_field "animationId" (animationId s)
        ++ [("position", JObj [("x", JNum (fst (position s)));
                               ("y", JNum (snd (position s)))])]).

Definition trigger_json (t : Trigger) : json :=
  JObj ([("type", JStr (trigger_type t))]
        ++ optional_field "targetId" (targetId t)
        ++ optional_field "key" (key t)
        ++ optional_field "eventName" (eventName t)).

Definition condition_json (c : Condition) : json :=
  JObj ([("type", JStr (cond_type c)); ("parameter", JStr (parameter c));
         ("operator", JStr (operator c))]
        ++ primitive_field "value" (cond_value c)).

Definition transition_json (t : StateTransition) : json :=
  JObj [("from", JStr (from t)); ("to", JStr (to t));
        ("triggers", JArr (map trigger_json (triggers t)));
        ("conditions", JArr (map condition_json (conditions t)))].

(** [RivExporter.serializeStateMachine] *)
Definition serializeStateMachine (sm : StateMachine) : json :=
  JObj [("id", JStr (sm_id sm)); ("name", JStr (sm_name sm));
        ("states", JArr (map (fun kv => state_json kv.2) (states sm)));
        ("transitions", JArr (map transition_json (transitions sm)));
        ("entryState", JStr (entryState sm))].

Section Exporter.
(** The platform functions: the text [JSON.stringify] gives a tree, the
    bytes [TextEncoder.encode] gives a text, and the Base64 text
    [btoa(String.fromCharCode(...bytes))] gives a byte buffer. *)
Variable JSON_text : json -> string.
Variable TextEncoder_encode : string -> list Byte.byte.
Variable btoa_bytes : list Byte.byte -> string.

(** [RivExporter.serializeAsset] *)
Definition serializeAsset (asset : Asset) : json :=
  JObj [("id", JStr (asset_id asset)); ("name", JStr (asset_name asset));
        ("type", JStr (asset_type asset)); ("data", JStr (btoa_bytes (data asset)))].

(** The object [exportToRiv] hands to [JSON.stringify]. *)
Definition project_document (fuel : nat) (h : heap) (project : RivProject) : option json :=
  match all_some (map (serializeArtboard fuel h) (artboards project)),
        all_some (map (serializeAnimation fuel h) (animations project)) with
  | Some abs, Some anims =>
      Some (JObj [("version", JStr (version project));
                  ("artboards", JArr abs);
                  ("animations", JArr anims);
                  ("stateMachines", JArr (map serializeStateMachine (stateMachines project)));
                  ("assets", JArr (map serializeAsset (assets project)))])
  | _, _ => None
  end.

(** [RivExporter.exportToRiv] *)
Definition exportToRiv (fuel : nat) (h : heap) (project : RivProject)
    : option (list Byte.byte) :=
  option_map (fun doc => TextEncoder_encode (JSON_text doc))
    (project_document fuel h project).
End Exporter.

(** ** Observations and scenarios *)

(** Group [g] keeps its children in the array at [a], whose elements are
    [es]. *)
Definition has_children (h : heap) (g a : loc) (es : list (option value)) : Prop :=
  exists c pa,
    h !! g = Some c /\ cell_get c "children" = VRef a /\
    h !! a = Some (Cell ArrayObject pa es).

(** [shape.parent] *)
Definition parent_of (h : heap) (s : loc) : value :=
  match h !! s with
  | Some c => cell_get c "parent"
  | None => VUndefined
  end.

(** Two groups and a rectangle; the rectangle is added to the first group
    and then to the second.  The result lists the children of the first
    group, the children of the second group, and the parent of the
    rectangle, after the shapes themselves. *)
Definition reparent_scenario : M (value * value * value * (list value * list value * value)) :=
  let* group := new_Group "g" "Group" in
  let* otherGroup := new_Group "h" "Other" in
  let* shape := new_Rectangle "s" "Shape" (VNum 100) (VNum 100) in
  addChild group shape ;;
  addChild otherGroup shape ;;
  let* c1 := get_prop group "children" in
  let* es1 := array_elements c1 in
  let* c2 := get_prop otherGroup "children" in
  let* es2 := array_elements c2 in
  let* p := get_prop shape "parent" in
  ret (group, otherGroup, shape, (es1, es2, p)).

Definition heap_of {A} (o : outcome A) : heap :=
  match o with
  | Normal _ h => h
  | Abrupt _ h => h
  end.

(** The heap after constructing two groups (at 0 and 8, their children
    arrays at 7 and 15) and a rectangle (at 16). *)
Definition three_shapes : heap :=
  heap_of ((new_Group "g" "Group" ;; new_Group "h" "Other" ;;
            new_Rectangle "s" "Shape" (VNum 100) (VNum 100)) []).

(** An animation whose only track addresses a path below the number
    [opacity]. *)
Definition opacity_path_animation : Animation :=
  mkAnimation "anim" "Animation" 1000
    [("opacity.a.b", addKeyframe (mkTrack "opacity.a.b" []) 0 (VNum 1) Linear)] "loop".

(** A rectangle receives a value at a path whose nodes below [fill] do
    not exist yet; the result is the value read back along the path. *)
Definition nested_path_write : M value :=
  let* rect := new_Rectangle "r" "Rect" (VNum 100) (VNum 100) in
  setPropertyValue rect "fill.gradient.stops.0.color.r" (VNum 255) ;;
  let* fill := get_prop rect "fill" in
  let* gradient := get_prop fill "gradient" in
  let* stops := get_prop gradient "stops" in
  let* stop := get_prop stops "0" in
  let* color := get_prop stop "color" in
  get_prop color "r".

(** A group with one rectangle is cloned.  The result is the clone, its id
    and name, and its children with their ids and parents. *)
Definition clone_group_scenario : M (value * value * value * list (value * value * value)) :=
  let* group := new_Group "g" "Group" in
  let* rect := new_Rectangle "r" "Rect" (VNum 100) (VNum 100) in
  addChild group rect ;;
  let* cloned := clone 2 group in
  let* id := get_prop cloned "id" in
  let* name := get_prop cloned "name" in
  let* children := get_prop cloned "children" in
  let* elements := array_elements children in
  let* h := read_heap in
  ret (cloned, id, name,
       map (fun child =>
              (child,
               match get_prop child "id" h with Normal x _ => x | _ => VUndefined end,
               match get_prop child "parent" h with Normal x _ => x | _ => VUndefined end))
           elements).

(** [shape.transform.position.x] *)
Definition position_x (shape : value) : M value :=
  let* transform := get_prop shape "transform" in
  let* position := get_prop transform "position" in
  get_prop position "x".

(** A rectangle is cloned and the clone is moved:
    [clone.transform.position.x = 5].  The result is the [x] of the
    original before and after the write. *)
Definition clone_then_move : M (value * value) :=
  let* rect := new_Rectangle "r" "Rect" (VNum 100) (VNum 100) in
  let* before := position_x rect in
  let* cloned := clone 1 rect in
  let* transform := get_prop cloned "transform" in
  let* position := get_prop transform "position" in
  set_prop position "x" (VNum 5) ;;
  let* after := position_x rect in
  ret (before, after).

(** [shape.fill.type] *)
Definition fill_type (shape : value) : M value :=
  let* fill := get_prop shape "fill" in
  get_prop fill "type".

(** A group and a rectangle, both with [fill.type = 'none'], are cloned.
    The result is the fill type of the two clones. *)
Definition clone_unfilled : M (value * value) :=
  let* group := new_Group "g" "Group" in
  let* gfill := get_prop group "fill" in
  set_prop gfill "type" (VStr "none") ;;
  let* rect := new_Rectangle "r" "Rect" (VNum 100) (VNum 100) in
  let* rfill := get_prop rect "fill" in
  set_prop rfill "type" (VStr "none") ;;
  let* group' := clone 1 group in
  let* rect' := clone 1 rect in
  let* t1 := fill_type group' in
  let* t2 := fill_type rect' in
  ret (t1, t2).

(** The structure of a value: its own properties and elements, nested
    ones included, without the back-reference [parent]. *)
Fixpoint structure_of (fuel : nat) (h : heap) (v : value) : option json :=
  match v with
  | VUndefined => None
  | VNull => Some JNull
  | VBool b => Some (JBool b)
  | VNum x => Some (JNum x)
  | VStr s => Some (JStr s)
  | VRef l =>
      match fuel with
      | O => None
      | S fuel' =>
          match h !! l with
          | None => None
          | Some c =>
              match
                all_some (map (fun e =>
                  match e with
                  | None | Some VUndefined => Some JNull
                  | Some x => structure_of fuel' h x
                  end) (c_elems c)),
                all_some (map (fun '(k, x) =>
                  option_map (pair k) (structure_of fuel' h x))
                  (filter (fun kv => kv.2 <> VUndefined /\ kv.1 <> "parent") (c_props c)))
              with
              | Some items, Some fields =>
                  Some (JObj (fields ++ match c_class c with
                                        | ArrayObject => [("elements", JArr items)]
                                        | _ => []
                                        end))
              | _, _ => None
              end
          end
      end
  end.

(** The structure of the shapes of a project, artboard by artboard.  Two
    structurally equal projects have the same. *)
Definition shapes_structure (fuel : nat) (h : heap) (project : RivProject)
    : option (list (list json)) :=
  all_some (map (fun ab => all_some (map (structure_of fuel h) (shapes ab)))
              (artboards project)).

(** A project with a group nested in a group, an animation with a numeric
    and a record-valued track, and a state machine with a transition.  The
    scene is built twice: with a rectangle inside the inner group, and with
    the inner group left empty. *)
Definition build_scene (fill_inner : bool) : M (value * value * value) :=
  let* outer := new_Group "outer" "Outer" in
  let* inner := new_Group "inner" "Inner" in
  let* rect := new_Rectangle "rect" "Rect" (VNum 100) (VNum 100) in
  (if fill_inner then addChild inner rect else ret tt) ;;
  addChild outer inner ;;
  let* from := new_object [("x", VNum 0); ("y", VNum 0)] in
  let* to := new_object [("x", VNum 10); ("y", VNum 20)] in
  ret (outer, from, to).

Definition scene_project (outer from to : value) : RivProject :=
  mkProject "1.0"
    [mkArtboard "ab" "Artboard" 800 600 [outer]]
    [mkAnimation "anim" "Animation" 1000
       [("opacity", mkTrack "opacity"
                      [mkKeyframe 0 (VNum 0) Linear; mkKeyframe 100 (VNum 1) EaseIn]);
        ("transform.position",
           mkTrack "transform.position"
             [mkKeyframe 0 from Linear; mkKeyframe 100 to EaseOut])]
       "loop"]
    [click_machine]
    [].

(** ** More of the animation system *)

(** [Array.prototype.findIndex]: the index of the first element that
    satisfies [p], from index [i] on; [-1] when there is none. *)
Fixpoint findIndex_from {A} (p : A -> bool) (xs : list A) (i : Z) : Z :=
  match xs with
  | [] => (-1)%Z
  | x :: xs' => if p x then i else findIndex_from p xs' (i + 1)%Z
  end.

Definition findIndex {A} (p : A -> bool) (xs : list A) : Z := findIndex_from p xs 0.

(** [AnimationTrack.removeKeyframe] *)
Definition removeKeyframe (track : AnimationTrack) (time : R) : AnimationTrack :=
  let index :=
    findIndex (fun kf => if Req_dec_T (kf_time kf) time then true else false)
      (keyframes track) in
  if (index >? -1)%Z
  then mkTrack (property track) (delete (Z.to_nat index) (keyframes track))
  else track.

(** [Animation.getTrack]; [None] is [undefined]. *)
Definition getTrack (a : Animation) (property : string) : option AnimationTrack :=
  assoc_get property (tracks a).

(** The five easing curves given by polynomials. *)
Definition polynomial_easings : list EasingFunction :=
  [Linear; EaseIn; EaseOut; EaseInOut; Bounce].

(** ** More of the state machine *)

(** The operators [checkTransitions] knows, and among them the four that
    compare by order. *)
Definition known_operators : list string := ["=="; "!="; ">"; "<"; ">="; "<="].
Definition order_operators : list string := [">"; "<"; ">="; "<="].

(** A condition that cannot hold: its operator is not a known one, or it
    compares by order a parameter that was never set. *)
Definition cannot_hold (params : list (string * primitive)) (c : Condition) : Prop :=
  ~ In (operator c) known_operators \/
  (In (operator c) order_operators /\ assoc_get (parameter c) params = None).



(** A transition that waits for a parameter to exceed a threshold. *)
Definition speed_condition : Condition := mkCondition "number" "speed" ">" (PNum 1).

Definition speed_transition : StateTransition :=
  mkTransition "entry" "fast" [speed_condition] [].

(** ** Property paths *)



(** The three shapes after the rectangle became a child of the first
    group. *)
Definition adopted_shapes : heap :=
  heap_of (addChild (VRef 0) (VRef 16) three_shapes).

(** ** Bounding boxes *)

(** [v.k1.k2...]: a chain of property reads. *)
Fixpoint get_path (v : value) (path : list string) : M value :=
  match path with
  | [] => ret v
  | k :: path' => let* v' := get_prop v k in get_path v' path'
  end.

(** An arithmetic operator on two numbers; operands of other types go
    through number conversions that are not modelled. *)
Definition js_arith (f : R -> R -> R) (a b : value) : M value :=
  match a, b with
  | VNum x, VNum y => ret (VNum (f x y))
  | _, _ => throw OutOfModel
  end.

(** [Rectangle.getBounds] *)
Definition Rectangle_getBounds (this : value) : M value :=
  let* px := get_path this ["transform"; "position"; "x"] in
  let* width := get_prop this "width" in
  let* pivot_x := get_path this ["transform"; "pivot"; "x"] in
  let* dx := js_arith Rmult width pivot_x in
  let* x := js_arith Rminus px dx in
  let* py := get_path this ["transform"; "position"; "y"] in
  let* height := get_prop this "height" in
  let* pivot_y := get_path this ["transform"; "pivot"; "y"] in
  let* dy := js_arith Rmult height pivot_y in
  let* y := js_arith Rminus py dy in
  let* width := get_prop this "width" in
  let* height := get_prop this "height" in
  new_object [("x", x); ("y", y); ("width", width); ("height", height)].

(** [Ellipse.getBounds] *)
Definition Ellipse_getBounds (this : value) : M value :=
  let* px := get_path this ["transform"; "position"; "x"] in
  let* radiusX := get_prop this "radiusX" in
  let* x := js_arith Rminus px radiusX in
  let* py := get_path this ["transform"; "position"; "y"] in
  let* radiusY := get_prop this "radiusY" in
  let* y := js_arith Rminus py radiusY in
  let* radiusX := get_prop this "radiusX" in
  let* width := js_arith Rmult radiusX (VNum 2) in
  let* radiusY := get_prop this "radiusY" in
  let* height := js_arith Rmult radiusY (VNum 2) in
  new_object [("x", x); ("y", y); ("width", width); ("height", height)].

(** [Path.getBounds] *)
Definition Path_getBounds (this : value) : M value :=
  let* x := get_path this ["transform"; "position"; "x"] in
  let* y := get_path this ["transform"; "position"; "y"] in
  new_object [("x", x); ("y", y); ("width", VNum 100); ("height", VNum 100)].

(** The four local variables of [Group.getBounds]; [None] is a bound that
    is still at its initial [Infinity] or [-Infinity]. *)
Record extent := mkExtent {
  minX : option R;
  minY : option R;
  maxX : option R;
  maxY : option R
}.

(** [Math.min(acc, v)] and [Math.max(acc, v)] for a number [v]. *)
Definition Math_min (acc : option R) (v : value) : M (option R) :=
  match v with
  | VNum x => ret (Some (match acc with Some m => Rmin m x | None => x end))
  | _ => throw OutOfModel
  end.

Definition Math_max (acc : option R) (v : value) : M (option R) :=
  match v with
  | VNum x => ret (Some (match acc with Some m => Rmax m x | None => x end))
  | _ => throw OutOfModel
  end.

(** The part of the [forEach] callback of [Group.getBounds] that follows
    the call of [child.getBounds()]. *)
Definition grow (acc : extent) (bounds : value) : M extent :=
  let* x := get_prop bounds "x" in
  let* minX' := Math_min (minX acc) x in
  let* y := get_prop bounds "y" in
  let* minY' := Math_min (minY acc) y in
  let* x := get_prop bounds "x" in
  let* width := get_prop bounds "width" in
  let* far_x := js_arith Rplus x width in
  let* maxX' := Math_max (maxX acc) far_x in
  let* y := get_prop bounds "y" in
  let* height := get_prop bounds "height" in
  let* far_y := js_arith Rplus y height in
  let* maxY' := Math_max (maxY acc) far_y in
  ret (mkExtent minX' minY' maxX' maxY').

(** A loop that updates local variables [s]. *)
Fixpoint fold_each {A S} (xs : list A) (s : S) (body : S -> A -> M S) : M S :=
  match xs with
  | [] => ret s
  | x :: xs' => let* s' := body s x in fold_each xs' s' body
  end.

(** [shape.getBounds()], dispatched on the class of [shape]; the
    [GroupClass] case is [Group.getBounds]. *)
Fixpoint getBounds (fuel : nat) (this : value) : M value :=
  match fuel with
  | O => throw OutOfFuel
  | S fuel' =>
      let* cls := class_of this in
      match cls with
      | Some RectangleClass => Rectangle_getBounds this
      | Some EllipseClass => Ellipse_getBounds this
      | Some PathClass => Path_getBounds this
      | Some GroupClass =>
          let* children := get_prop this "children" in
          let* len := get_prop children "length" in
          if strict_eq len (VNum 0) then
            new_object [("x", VNum 0); ("y", VNum 0); ("width", VNum 0); ("height", VNum 0)]
          else
            let* children := get_prop this "children" in
            let* elements := array_elements children in
            let* ext :=
              fold_each elements (mkExtent None None None None) (fun acc child =>
                let* bounds := getBounds fuel' child in
                grow acc bounds) in
            match minX ext, minY ext, maxX ext, maxY ext with
            | Some x0, Some y0, Some x1, Some y1 =>
                new_object [("x", VNum x0); ("y", VNum y0);
                            ("width", VNum (x1 - x0)); ("height", VNum (y1 - y0))]
            | _, _, _, _ => throw OutOfModel
            end
      | _ => throw TypeError
      end
  end.





(** ** What a computation leaves alone *)

(** A computation that only reads. *)
Definition reads {A} (c : M A) : Prop := forall h, heap_of (c h) = h.

(** Heap [h] comes from heap [hb] by steps that leave every object below
    location [n] as it is, and that keep the class of the object at [lc]
    and those of its properties [keys] that are not array indices or
    [length]. *)
Definition evolves (n : nat) (lc : loc) (keys : list string) (hb h : heap) : Prop :=
  (n <= length hb)%nat /\ (length hb <= length h)%nat /\
  (forall l, (l < n)%nat -> h !! l = hb !! l) /\
  (forall c, hb !! lc = Some c ->
     exists c', h !! lc = Some c' /\ c_class c' = c_class c /\
                forall k, In k keys -> array_index k = None -> k <> "length" ->
                          cell_get c' k = cell_get c k).

(** Computation [c] run on [h] keeps the invariant [I] of the heap, also
    when it throws; when it returns, [Q] holds of the result. *)
Definition holds (I : heap -> Prop) {A} (c : M A) (h : heap) (Q : A -> heap -> Prop) : Prop :=
  I h ->
  match c h with
  | Normal a h' => I h' /\ Q a h'
  | Abrupt _ h' => I h'
  end.

(** The properties of a shape that no [clone] copies. *)
Definition uncopied : list string := ["parent"; "visible"; "locked"; "children"].




(** ** The objects of a new shape *)

(** The objects [new] creates for a shape of class [cls] allocated at
    location [n]: the shape itself (with the properties [own] its class
    adds), then its position, scale, pivot, transform, colour and fill. *)
Definition shape_cells (n : nat) (cls : classTag) (id name : string)
    (own : list (string * value)) : list cell :=
  [Cell cls ([("parent", VNull); ("id", VStr id); ("name", VStr name);
              ("transform", VRef (n + 4)); ("fill", VRef (n + 6)); ("stroke", VNull);
              ("opacity", VNum 1); ("visible", VBool true); ("locked", VBool false)]
             ++ own) [];
   Cell PlainObject [("x", VNum 0); ("y", VNum 0)] [];
   Cell PlainObject [("x", VNum 1); ("y", VNum 1)] [];
   Cell PlainObject [("x", VNum 0); ("y", VNum 0)] [];
   Cell PlainObject [("position", VRef (n + 1)); ("scale", VRef (n + 2));
                     ("rotation", VNum 0); ("pivot", VRef (n + 3))] [];
   Cell PlainObject [("r", VNum 128); ("g", VNum 128); ("b", VNum 128); ("a", VNum 1)] [];
   Cell PlainObject [("type", VStr "solid"); ("color", VRef (n + 5))] []].

(** What a call [shape.clone()] made on heap [h] leaves behind: the heap
    [h] followed by new objects, whether the call returns or throws; when
    it returns, the clone is the first of the new objects, and it has no
    parent, is visible and is not locked. *)
Definition clone_outcome (h : heap) (o : outcome value) : Prop :=
  match o with
  | Normal v h' =>
      v = VRef (length h) /\ (exists new, h' = h ++ new) /\
      exists c, h' !! length h = Some c /\
                cell_get c "parent" = VNull /\
                cell_get c "visible" = VBool true /\
                cell_get c "locked" = VBool false
  | Abrupt _ h' => exists new, h' = h ++ new
  end.

(** The rectangle of [adopted_shapes] (at 16, a child of the group at 0),
    hidden and locked. *)
Definition hidden_child : heap :=
  heap_of ((set_prop (VRef 16) "visible" (VBool false) ;;
            set_prop (VRef 16) "locked" (VBool true)) adopted_shapes).

(** Heap [h'] is heap [h], or [h] followed by one new object. *)
Definition at_most_one_new (h h' : heap) : Prop := h' = h \/ exists c, h' = h ++ [c].

(** ** A machine at run time *)

(** Machine [sm'] comes from machine [sm] by calls of [setParameter] and
    [checkTransitions]. *)
Inductive runs (sm : StateMachine) : StateMachine -> Prop :=
| runs_start : runs sm sm
| runs_setParameter sm' name v :
    runs sm sm' -> runs sm (setParameter sm' name v)
| runs_checkTransitions sm' event sm'' result :
    runs sm sm' -> checkTransitions sm' event = Some (sm'', result) -> runs sm sm''.

(** A project with other state machines. *)
Definition with_stateMachines (project : RivProject) (machines : list StateMachine)
    : RivProject :=
  mkProject (version project) (artboards project) (animations project) machines
    (assets project).

(** A project that holds the click machine only. *)
Definition click_project : RivProject := mkProject "1.0" [] [] [click_machine] [].

(** * Properties *)

(** ** Association lists *)

Section AssocFacts.
Context {V : Type}.
Implicit Types (m : list (string * V)) (k : string) (v : V).

Lemma assoc_get_set_eq k v m : assoc_get k (assoc_set k v m) = Some v.
Proof.
  induction m as [|[k' v'] m IH]; simpl.
  - now rewrite String.eqb_refl.
  - destruct (String.eqb k' k) eqn:E; simpl.
    + now rewrite String.eqb_refl.
    + now rewrite E.
Qed.

Lemma assoc_get_set_ne k k' v m :
  k <> k' -> assoc_get k' (assoc_set k v m) = assoc_get k' m.
Proof.
  intros Hne. induction m as [|[k0 v0] m IH]; simpl.
  - destruct (String.eqb k k') eqn:E; [apply String.eqb_eq in E; contradiction | reflexivity].
  - destruct (String.eqb k0 k) eqn:E; simpl.
    + apply String.eqb_eq in E; subst k0.
      destruct (String.eqb k k') eqn:E'; [apply String.eqb_eq in E'; contradiction | reflexivity].
    + destruct (String.eqb k0 k'); [reflexivity | apply IH].
Qed.

End AssocFacts.

(** ** Easing curves *)

Section EasingFacts.
Local Open Scope R_scope.

Ltac cases_on_time :=
  repeat match goal with
         | |- context [Rlt_dec ?a ?b] => destruct (Rlt_dec a b); try lra
         end.

Lemma applyEasing_elastic_0 : applyEasing 0 Elastic = 0.
Proof.
  unfold applyEasing.
  replace (-10 * 0) with 0 by lra.
  rewrite Rpower_O by lra.
  replace ((0 - 0.075) * (2 * PI) / 0.3) with (- (PI / 2)) by lra.
  rewrite sin_neg, sin_PI2. lra.
Qed.

Lemma applyEasing_elastic_1 : applyEasing 1 Elastic = 1 + / 2048.
Proof.
  unfold applyEasing.
  replace (-10 * 1) with (- INR 10) by (simpl; lra).
  rewrite Rpower_Ropp, Rpower_pow by lra.
  replace ((1 - 0.075) * (2 * PI) / 0.3) with (PI / 6 + 2 * INR 3 * PI) by (simpl; lra).
  rewrite sin_period, sin_PI6. lra.
Qed.

(** C7, as the code has it: each of the six named curves sends 0 to 0; the
    five polynomial curves send 1 to 1; the elastic curve sends 1 to
    1 + 2^-11 = 1.00048828125. *)
Theorem applyEasing_boundary :
  Forall (fun e => applyEasing 0 e = 0) [Linear; EaseIn; EaseOut; EaseInOut; Bounce; Elastic] /\
  Forall (fun e => applyEasing 1 e = 1) [Linear; EaseIn; EaseOut; EaseInOut; Bounce] /\
  applyEasing 1 Elastic = 1 + / 2048.
Proof.
  split; [|split].
  - repeat constructor; try exact applyEasing_elastic_0;
      unfold applyEasing; cases_on_time; lra.
  - repeat constructor; unfold applyEasing; cases_on_time; lra.
  - exact applyEasing_elastic_1.
Qed.

(** C7, as stated, fails at the elastic curve: its value at 1 is not 1. *)
Lemma applyEasing_elastic_1_not_1 :
  ~ Forall (fun e => applyEasing 0 e = 0 /\ applyEasing 1 e = 1)
      [Linear; EaseIn; EaseOut; EaseInOut; Bounce; Elastic].
Proof.
  intros H. rewrite !Forall_cons in H.
  destruct H as (_ & _ & _ & _ & _ & [_ H] & _).
  rewrite applyEasing_elastic_1 in H. lra.
Qed.
End EasingFacts.

(** ** Keyframe resolution *)

Section TrackFacts.
Local Open Scope R_scope.

Ltac compare_reals :=
  repeat match goal with
         | |- context [Rle_dec ?a ?b] => destruct (Rle_dec a b); try lra
         | |- context [Rge_dec ?a ?b] => destruct (Rge_dec a b); try lra
         | |- context [Rgt_dec ?a ?b] => destruct (Rgt_dec a b); try lra
         | |- context [Rlt_dec ?a ?b] => destruct (Rlt_dec a b); try lra
         end.

(** The loop walks over keyframes that lie strictly before [t] and
    remembers the last of them. *)
Lemma scanKeyframes_skip (pre rest : list Keyframe) (i : Z) (t : R) (b : Z) :
  Forall (fun k => kf_time k < t) pre ->
  scanKeyframes (pre ++ rest) i t b =
  scanKeyframes rest (i + Z.of_nat (length pre)) t
    (match pre with [] => b | _ => i + Z.of_nat (length pre) - 1 end)%Z.
Proof.
  revert i b. induction pre as [|k pre IH]; intros i b Hpre.
  - simpl. now rewrite Z.add_0_r.
  - apply Forall_cons in Hpre as [Hk Hpre].
    cbn [app scanKeyframes]. compare_reals.
    rewrite IH by assumption.
    replace (i + 1 + Z.of_nat (length pre))%Z
      with (i + Z.of_nat (length (k :: pre)))%Z by (cbn [length]; lia).
    destruct pre; [|reflexivity].
    f_equal. cbn [length]. lia.
Qed.

Lemma keyframe_at_middle (pre post : list Keyframe) (k : Keyframe) :
  keyframe_at (pre ++ k :: post) (Z.of_nat (length pre)) = ret k.
Proof.
  unfold keyframe_at.
  destruct (Z.ltb_spec (Z.of_nat (length pre)) 0); [lia|].
  rewrite Nat2Z.id, list_lookup_middle; reflexivity.
Qed.

Lemma time_ordered_before (pre post : list Keyframe) (k : Keyframe) (t : R) :
  time_ordered (pre ++ k :: post) -> kf_time k < t ->
  Forall (fun k' => kf_time k' < t) pre.
Proof.
  unfold time_ordered. intros Hs Hk.
  induction pre as [|a pre IH]; [constructor|].
  cbn [app] in Hs. apply StronglySorted_inv in Hs as [Hs Ha].
  constructor; [|now apply IH].
  rewrite List.Forall_forall in Ha.
  specialize (Ha k). cbv beta in Ha.
  assert (kf_time a <= kf_time k) by (apply Ha, in_or_app; right; now left).
  lra.
Qed.

Lemma insertKeyframe_time_ordered (kf : Keyframe) (kfs : list Keyframe) :
  time_ordered kfs -> time_ordered (insertKeyframe kf kfs).
Proof.
  unfold time_ordered. induction kfs as [|k kfs IH]; intros Hs.
  - repeat constructor.
  - cbn [insertKeyframe]. apply StronglySorted_inv in Hs as Hs'.
    destruct Hs' as [Hs' Hk].
    destruct (Rgt_dec (kf_time k) (kf_time kf)) as [Hgt|Hle].
    + constructor; [assumption|].
      constructor; [lra|].
      eapply List.Forall_impl; [|exact Hk]. cbv beta. intros; lra.
    + constructor; [now apply IH|].
      assert (Hin : forall x, In x (insertKeyframe kf kfs) -> x = kf \/ In x kfs).
      { clear. induction kfs as [|a l IHl]; cbn [insertKeyframe]; intros x Hx.
        - destruct Hx as [<-|[]]. now left.
        - destruct (Rgt_dec (kf_time a) (kf_time kf)).
          + destruct Hx as [<-|Hx]; [now left | now right].
          + destruct Hx as [<-|Hx]; [right; now left|].
            destruct (IHl _ Hx); [now left | right; now right]. }
      rewrite List.Forall_forall in Hk |- *.
      intros x Hx. destruct (Hin x Hx) as [->|Hx']; [lra | now apply Hk].
Qed.

Lemma scenario_keyframes :
  keyframes scenario_track =
  [mkKeyframe 0 (VNum 0) Linear; mkKeyframe 100 (VNum 10) EaseIn].
Proof.
  cbv [scenario_track addKeyframe keyframes property insertKeyframe kf_time].
  compare_reals. reflexivity.
Qed.

Lemma getValueAtTime_interpolates (track : AnimationTrack) (t : R)
    (pre post : list Keyframe) (before after : Keyframe) (h : heap) :
  time_ordered (keyframes track) ->
  keyframes track = pre ++ before :: after :: post ->
  kf_time before < t < kf_time after ->
  getValueAtTime track t h =
  interpolate (kf_value before) (kf_value after)
    (applyEasing ((t - kf_time before) / (kf_time after - kf_time before))
       (kf_easing before)) h.
Proof.
  intros Hord Hkfs [Hb Ha].
  unfold getValueAtTime. rewrite Hkfs in *.
  assert (Hpre : Forall (fun k => kf_time k < t) pre)
    by (eapply time_ordered_before; eauto).
  rewrite length_app. cbn [length].
  destruct (Nat.eqb_spec (length pre + S (S (length post))) 0); [lia|].
  rewrite scanKeyframes_skip by assumption.
  cbn [scanKeyframes]. compare_reals.
  rewrite Z.add_0_l.
  set (idx := Z.of_nat (length pre)).
  assert (Hidx : (0 <= idx)%Z) by (subst idx; lia).
  destruct (Z.eqb_spec idx (-1)); [lia|].
  destruct (Z.eqb_spec (idx + 1) (-1)); [lia|].
  destruct (Z.eqb_spec idx (idx + 1)); [lia|].
  subst idx. unfold bind. rewrite keyframe_at_middle. unfold ret at 1.
  replace (pre ++ before :: after :: post) with ((pre ++ [before]) ++ after :: post)
    by (now rewrite <- app_assoc).
  replace (Z.of_nat (length pre) + 1)%Z with (Z.of_nat (length (pre ++ [before])))
    by (rewrite length_app; cbn [length]; lia).
  rewrite keyframe_at_middle. reflexivity.
Qed.

Lemma scenario_time_ordered : time_ordered (keyframes scenario_track).
Proof.
  rewrite scenario_keyframes. unfold time_ordered.
  repeat constructor. cbv [kf_time]. lra.
Qed.

Lemma getValueAtTime_scenario_50 (h : heap) :
  getValueAtTime scenario_track 50 h = Normal (VNum 5) h.
Proof.
  rewrite (getValueAtTime_interpolates scenario_track 50 [] []
             (mkKeyframe 0 (VNum 0) Linear) (mkKeyframe 100 (VNum 10) EaseIn) h).
  - cbv [kf_value kf_time kf_easing interpolate applyEasing ret]. f_equal. f_equal. lra.
  - apply scenario_time_ordered.
  - apply scenario_keyframes.
  - cbv [kf_time]. lra.
Qed.

(** C1, as the code has it.  In a time-ordered track whose neighbouring
    keyframes [before] and [after] enclose [t] strictly,
    [getValueAtTime] interpolates their values at the progress eased by
    the easing of [before]; in the scenario track the keyframe before
    [t = 50] carries [linear], and the value is 5. *)
Theorem getValueAtTime_between :
  (forall (track : AnimationTrack) (t : R) (pre post : list Keyframe)
          (before after : Keyframe) (h : heap),
      time_ordered (keyframes track) ->
      keyframes track = pre ++ before :: after :: post ->
      kf_time before < t < kf_time after ->
      getValueAtTime track t h =
      interpolate (kf_value before) (kf_value after)
        (applyEasing ((t - kf_time before) / (kf_time after - kf_time before))
           (kf_easing before)) h) /\
  (forall h : heap, getValueAtTime scenario_track 50 h = Normal (VNum 5) h).
Proof.
  split; [exact getValueAtTime_interpolates | exact getValueAtTime_scenario_50].
Qed.

Lemma getValueAtTime_between_witness :
  (time_ordered (keyframes scenario_track) /\
   keyframes scenario_track =
     [] ++ mkKeyframe 0 (VNum 0) Linear :: mkKeyframe 100 (VNum 10) EaseIn :: [] /\
   0 < 50 < 100) /\
  getValueAtTime scenario_track 50 [] =
  interpolate (VNum 0) (VNum 10) (applyEasing ((50 - 0) / (100 - 0)) Linear) [].
Proof.
  pose proof scenario_time_ordered as Hord.
  split; [split; [exact Hord | split; [apply scenario_keyframes | lra]]|].
  apply (proj1 getValueAtTime_between scenario_track 50 [] []
           (mkKeyframe 0 (VNum 0) Linear) (mkKeyframe 100 (VNum 10) EaseIn) []).
  - exact Hord.
  - apply scenario_keyframes.
  - cbv [kf_time]. lra.
Defined.

(** C1, as stated, fails at its own scenario: the value at 50 is not 2.5. *)
Lemma getValueAtTime_scenario_not_2_5 :
  getValueAtTime scenario_track 50 [] <> Normal (VNum 2.5) [].
Proof.
  rewrite getValueAtTime_scenario_50.
  intros H. injection H as H. lra.
Qed.

Lemma getValueAtTime_empty (track : AnimationTrack) (t : R) (h : heap) :
  keyframes track = [] -> getValueAtTime track t h = Normal VNull h.
Proof. intros E. unfold getValueAtTime. now rewrite E. Qed.

Lemma getValueAtTime_at_or_before_first (track : AnimationTrack) (t : R) (h : heap)
    (first : Keyframe) (rest : list Keyframe) :
  keyframes track = first :: rest -> t <= kf_time first ->
  getValueAtTime track t h = Normal (kf_value first) h.
Proof.
  intros E Ht. unfold getValueAtTime. rewrite E.
  cbn [length Nat.eqb scanKeyframes].
  destruct (Rle_dec (kf_time first) t), (Rge_dec (kf_time first) t); try lra;
    reflexivity.
Qed.

Lemma getValueAtTime_at_or_after_last (track : AnimationTrack) (t : R) (h : heap)
    (init : list Keyframe) (lastk : Keyframe) :
  keyframes track = init ++ [lastk] ->
  Forall (fun k => kf_time k < t) init -> kf_time lastk <= t ->
  getValueAtTime track t h = Normal (kf_value lastk) h.
Proof.
  intros E Hinit Ht. unfold getValueAtTime. rewrite E.
  rewrite length_app. cbn [length].
  destruct (Nat.eqb_spec (length init + 1) 0); [lia|].
  rewrite scanKeyframes_skip by assumption.
  cbn [scanKeyframes]. rewrite Z.add_0_l.
  set (idx := Z.of_nat (length init)).
  assert (Hidx : (0 <= idx)%Z) by (subst idx; lia).
  destruct (Rle_dec (kf_time lastk) t); [|lra].
  destruct (Rge_dec (kf_time lastk) t).
  - destruct (Z.eqb_spec idx (-1)); [lia|].
    rewrite Z.eqb_refl. subst idx.
    unfold bind. now rewrite keyframe_at_middle.
  - destruct (Z.eqb_spec idx (-1)); [lia|].
    cbn [Z.eqb]. unfold bind.
    replace (Z.of_nat (length init + 1) - 1)%Z with idx by (subst idx; lia).
    subst idx. now rewrite keyframe_at_middle.
Qed.

(** In a track whose times strictly increase, every keyframe but the
    last lies strictly before any time at or after the last one. *)
Lemma strictly_ordered_init (init : list Keyframe) (lastk : Keyframe) (t : R) :
  strictly_time_ordered (init ++ [lastk]) -> kf_time lastk <= t ->
  Forall (fun k => kf_time k < t) init.
Proof.
  unfold strictly_time_ordered. intros Hs Ht.
  induction init as [|a init IH]; [constructor|].
  cbn [app] in Hs. apply StronglySorted_inv in Hs as [Hs Ha].
  constructor; [|now apply IH].
  rewrite List.Forall_forall in Ha.
  assert (kf_time a < kf_time lastk) by (apply Ha, in_or_app; right; now left).
  lra.
Qed.

(** C2, as the code has it.  An empty track resolves to [null]; a time at
    or before the first keyframe resolves to the first value; a time at
    or after the last keyframe resolves to the last value, provided every
    earlier keyframe lies strictly before that time. *)
Theorem getValueAtTime_clamps (track : AnimationTrack) (t : R) (h : heap) :
  (keyframes track = [] -> getValueAtTime track t h = Normal VNull h) /\
  (forall first rest,
      keyframes track = first :: rest -> t <= kf_time first ->
      getValueAtTime track t h = Normal (kf_value first) h) /\
  (forall init lastk,
      keyframes track = init ++ [lastk] ->
      Forall (fun k => kf_time k < t) init -> kf_time lastk <= t ->
      getValueAtTime track t h = Normal (kf_value lastk) h).
Proof.
  split; [|split].
  - apply getValueAtTime_empty.
  - intros; eapply getValueAtTime_at_or_before_first; eauto.
  - intros; eapply getValueAtTime_at_or_after_last; eauto.
Qed.

Lemma getValueAtTime_clamps_witness :
  (keyframes scenario_track =
     [mkKeyframe 0 (VNum 0) Linear] ++ [mkKeyframe 100 (VNum 10) EaseIn] /\
   Forall (fun k => kf_time k < 100) [mkKeyframe 0 (VNum 0) Linear] /\
   100 <= 100) /\
  getValueAtTime scenario_track 100 [] = Normal (VNum 10) [].
Proof.
  assert (H0 : Forall (fun k => kf_time k < 100) [mkKeyframe 0 (VNum 0) Linear])
    by (repeat constructor; cbv [kf_time]; lra).
  split; [split; [apply scenario_keyframes | split; [exact H0 | lra]]|].
  apply (proj2 (proj2 (getValueAtTime_clamps scenario_track 100 []))
           [mkKeyframe 0 (VNum 0) Linear] (mkKeyframe 100 (VNum 10) EaseIn)).
  - apply scenario_keyframes.
  - exact H0.
  - cbv [kf_time]. lra.
Defined.

Lemma tied_keyframes :
  keyframes tied_track = [mkKeyframe 10 (VNum 1) Linear; mkKeyframe 10 (VNum 2) Linear].
Proof.
  cbv [tied_track addKeyframe keyframes property insertKeyframe kf_time].
  compare_reals. reflexivity.
Qed.

(** C2, as stated, fails on a track built by two [addKeyframe] calls at
    one time: at that time the first of the two values is returned, not
    the last keyframe's. *)
Lemma getValueAtTime_tied_not_last :
  exists lastk,
    last (keyframes tied_track) = Some lastk /\
    10 >= kf_time lastk /\
    getValueAtTime tied_track 10 [] <> Normal (kf_value lastk) [].
Proof.
  exists (mkKeyframe 10 (VNum 2) Linear).
  rewrite tied_keyframes. split; [reflexivity|]. split; [cbv [kf_time]; lra|].
  rewrite (getValueAtTime_at_or_before_first tied_track 10 []
             (mkKeyframe 10 (VNum 1) Linear) [mkKeyframe 10 (VNum 2) Linear]).
  - cbv [kf_value]. intros H. injection H as H. lra.
  - apply tied_keyframes.
  - cbv [kf_time]. lra.
Qed.
End TrackFacts.

(** ** Interpolation of keyframe values *)

Section InterpolateFacts.
Local Open Scope R_scope.

(** The fields the loop of [interpolate] has written into the result
    after visiting [keys], starting from the fields [acc]. *)
Let blended (pf : list (string * value)) (ct : cell) (p : R) :=
  fold_left (fun acc k =>
    match assoc_get k pf with
    | Some (VNum a) =>
        match cell_get ct k with
        | VNum b => assoc_set k (VNum (a + (b - a) * p)) acc
        | _ => acc
        end
    | _ => acc
    end).

Lemma interpolate_loop (h : heap) (lf lt r : loc) (pf : list (string * value))
    (ct : cell) (p : R) (keys : list string) (acc : list (string * value)) :
  h !! lf = Some (Cell PlainObject pf []) -> h !! lt = Some ct ->
  h !! r = Some (Cell PlainObject acc []) -> r <> lf -> r <> lt ->
  for_each keys (interpolate_key (VRef lf) (VRef lt) (VRef r) p) h =
  Normal tt (<[r := Cell PlainObject (blended pf ct p keys acc) []]> h).
Proof.
  revert h acc. induction keys as [|k keys IH]; intros h acc Hf Ht Hr Hrf Hrt.
  - cbn. unfold ret. now rewrite list_insert_id.
  - cbn [for_each fold_left blended]. unfold bind at 1.
    unfold interpolate_key at 1. unfold bind at 1. unfold get_prop at 1.
    rewrite Hf. unfold cell_get at 1. cbn [c_class c_props].
    assert (Hlen : (r < length h)%nat) by (eapply lookup_lt_Some; eauto).
    destruct (assoc_get k pf) as [[| | |a| |]|] eqn:Ek; cbn [from_option Datatypes.id];
      try (unfold ret at 1; rewrite (IH h acc) by assumption; reflexivity).
    unfold bind at 1. unfold get_prop at 1. rewrite Ht.
    destruct (cell_get ct k) as [| | |b| |] eqn:Etk;
      try (unfold ret at 1; rewrite (IH h acc) by assumption; reflexivity).
    unfold set_prop. rewrite Hr. unfold cell_set. cbn [c_class c_props c_elems].
    rewrite (IH _ (assoc_set k (VNum (a + (b - a) * p)) acc)).
    + now rewrite list_insert_insert_eq.
    + rewrite list_lookup_insert_ne by congruence. exact Hf.
    + rewrite list_lookup_insert_ne by congruence. exact Ht.
    + now rewrite list_lookup_insert_eq.
    + assumption.
    + assumption.
Qed.

Lemma blended_lookup (pf : list (string * value)) (ct : cell) (p : R)
    (keys : list string) (acc : list (string * value)) (k : string) :
  assoc_get k (blended pf ct p keys acc) =
  match assoc_get k pf, cell_get ct k with
  | Some (VNum a), VNum b =>
      if bool_decide (k ∈ keys) then Some (VNum (a + (b - a) * p)) else assoc_get k acc
  | _, _ => assoc_get k acc
  end.
Proof.
  revert acc. induction keys as [|k0 keys IH]; intros acc.
  - cbn. destruct (assoc_get k pf) as [[]|]; try reflexivity.
    destruct (cell_get ct k); reflexivity.
  - cbn [blended fold_left]. fold (blended pf ct p). rewrite IH.
    destruct (decide (k = k0)) as [->|Hne].
    + destruct (assoc_get k0 pf) as [[| | |a| |]|]; try reflexivity.
      destruct (cell_get ct k0) as [| | |b| |]; try reflexivity.
      rewrite assoc_get_set_eq.
      rewrite (bool_decide_eq_true_2 (k0 ∈ k0 :: keys)) by (left).
      now destruct (bool_decide (k0 ∈ keys)).
    + assert (Hacc : forall acc',
        acc' = match assoc_get k0 pf with
               | Some (VNum a) =>
                   match cell_get ct k0 with
                   | VNum b => assoc_set k0 (VNum (a + (b - a) * p)) acc
                   | _ => acc
                   end
               | _ => acc
               end -> assoc_get k acc' = assoc_get k acc).
      { intros acc' ->. destruct (assoc_get k0 pf) as [[| | |a| |]|]; try reflexivity.
        destruct (cell_get ct k0); try reflexivity.
        now apply assoc_get_set_ne. }
      rewrite (Hacc _ eq_refl).
      assert (Hdec : bool_decide (k ∈ k0 :: keys) = bool_decide (k ∈ keys)).
      { apply bool_decide_ext. rewrite elem_of_cons. intuition congruence. }
      now rewrite Hdec.
Qed.

Lemma assoc_get_in_keys {V} (k : string) (v : V) (m : list (string * V)) :
  assoc_get k m = Some v -> k ∈ (fst <$> m).
Proof.
  induction m as [|[k' v'] m IH]; cbn; [discriminate|].
  destruct (String.eqb_spec k' k) as [->|]; [left | right; auto].
Qed.

Lemma interpolate_records (h : heap) (p : R) (lf lt : loc)
    (pf : list (string * value)) (ct : cell) :
  h !! lf = Some (Cell PlainObject pf []) -> h !! lt = Some ct ->
  exists h',
    interpolate (VRef lf) (VRef lt) p h = Normal (VRef (length h)) h' /\
    (forall l c, h !! l = Some c -> h' !! l = Some c) /\
    forall k,
      get_prop (VRef (length h)) k h' =
      Normal (match default VUndefined (assoc_get k pf), cell_get ct k with
              | VNum a, VNum b => VNum (a + (b - a) * p)
              | _, _ => VUndefined
              end) h'.
Proof.
  intros Hf Ht.
  assert (Hlf : (lf < length h)%nat) by (eapply lookup_lt_Some; eauto).
  assert (Hlt : (lt < length h)%nat) by (eapply lookup_lt_Some; eauto).
  set (r := length h).
  set (h1 := h ++ [Cell PlainObject [] []]).
  assert (Hf1 : h1 !! lf = Some (Cell PlainObject pf [])).
  { subst h1. rewrite lookup_app_l by assumption. exact Hf. }
  assert (Ht1 : h1 !! lt = Some ct).
  { subst h1. rewrite lookup_app_l by assumption. exact Ht. }
  assert (Hr1 : h1 !! r = Some (Cell PlainObject [] [])).
  { subst h1 r. now rewrite list_lookup_middle. }
  exists (<[r := Cell PlainObject (blended pf ct p (fst <$> pf) []) []]> h1).
  split; [|split].
  - unfold interpolate. cbn [typeof String.eqb Ascii.eqb Bool.eqb andb].
    unfold bind at 1. unfold new_object, alloc. fold r. fold h1.
    unfold bind at 1. unfold for_in_keys. rewrite Hf1.
    cbn [c_elems c_props present_indices app].
    unfold bind.
    rewrite (interpolate_loop h1 lf lt r pf ct p (fst <$> pf) []) by (assumption || lia).
    reflexivity.
  - intros l c Hl.
    assert (l < length h)%nat by (eapply lookup_lt_Some; eauto).
    rewrite list_lookup_insert_ne by (subst r; lia).
    subst h1. now rewrite lookup_app_l.
  - intros k. unfold get_prop.
    rewrite list_lookup_insert_eq by (eapply lookup_lt_Some; eauto).
    f_equal. unfold cell_get at 1. cbn [c_class c_props].
    rewrite blended_lookup. cbn [assoc_get].
    destruct (assoc_get k pf) as [v|] eqn:Ek; cbn [from_option Datatypes.id]; [|reflexivity].
    destruct v; try reflexivity.
    destruct (cell_get ct k); try reflexivity.
    rewrite bool_decide_eq_true_2 by (eapply assoc_get_in_keys; eauto).
    reflexivity.
Qed.

Lemma interpolate_discrete (h : heap) (p : R) (from to : value) :
  typeof from <> "object" \/ typeof to <> "object" ->
  typeof from <> "number" \/ typeof to <> "number" ->
  interpolate from to p h = Normal (if Rlt_dec p 0.5 then from else to) h.
Proof.
  intros Hobj Hnum.
  destruct from, to; cbn in Hobj, Hnum; try reflexivity;
    solve [destruct Hobj as [Hobj|Hobj]; now elim Hobj
          |destruct Hnum as [Hnum|Hnum]; now elim Hnum].
Qed.

(** C8, as the code has it.  Between two records the result is a fresh
    record holding the linear blend of every field that is numeric in
    both, and no other field; the records in the heap are left as they
    were.  Between two values that are not both numbers and not both of
    type "object", the result is the before value for an eased progress
    below 0.5 and the after value from 0.5 on. *)
Theorem interpolate_by_kind (h : heap) (p : R) :
  (forall (lf lt : loc) (pf : list (string * value)) (ct : cell),
      h !! lf = Some (Cell PlainObject pf []) -> h !! lt = Some ct ->
      exists h',
        interpolate (VRef lf) (VRef lt) p h = Normal (VRef (length h)) h' /\
        (forall l c, h !! l = Some c -> h' !! l = Some c) /\
        forall k,
          get_prop (VRef (length h)) k h' =
          Normal (match default VUndefined (assoc_get k pf), cell_get ct k with
                  | VNum a, VNum b => VNum (a + (b - a) * p)
                  | _, _ => VUndefined
                  end) h') /\
  (forall from to : value,
      typeof from <> "object" \/ typeof to <> "object" ->
      typeof from <> "number" \/ typeof to <> "number" ->
      (p < 0.5 -> interpolate from to p h = Normal from h) /\
      (0.5 <= p -> interpolate from to p h = Normal to h)).
Proof.
  split.
  - intros. now apply interpolate_records.
  - intros from to Hobj Hnum.
    rewrite interpolate_discrete by assumption.
    split; intros Hp; destruct (Rlt_dec p 0.5); try reflexivity; lra.
Qed.

Lemma interpolate_by_kind_witness :
  (two_records !! 0%nat =
     Some (Cell PlainObject [("x", VNum 0); ("label", VStr "a")] []) /\
   two_records !! 1%nat =
     Some (Cell PlainObject [("x", VNum 10); ("label", VStr "b")] [])) /\
  exists h',
    interpolate (VRef 0) (VRef 1) 0.5 two_records = Normal (VRef 2) h' /\
    (forall l c, two_records !! l = Some c -> h' !! l = Some c) /\
    forall k,
      get_prop (VRef 2) k h' =
      Normal (match default VUndefined
                      (assoc_get k [("x", VNum 0); ("label", VStr "a")]),
                    cell_get (Cell PlainObject [("x", VNum 10); ("label", VStr "b")] []) k
              with
              | VNum a, VNum b => VNum (a + (b - a) * 0.5)
              | _, _ => VUndefined
              end) h'.
Proof.
  split; [split; reflexivity|].
  apply (proj1 (interpolate_by_kind two_records 0.5) 0%nat 1%nat); reflexivity.
Defined.

(** C8, as stated, fails on the textual field of a record: the result
    does not carry the before value of [label]; it has no such field. *)
Lemma interpolate_drops_label :
  exists r h',
    interpolate (VRef 0) (VRef 1) 0.5 two_records = Normal r h' /\
    get_prop (VRef 0) "label" two_records = Normal (VStr "a") two_records /\
    get_prop r "label" h' = Normal VUndefined h' /\
    get_prop r "label" h' <> Normal (VStr "a") h'.
Proof.
  destruct (interpolate_records two_records 0.5 0 1
              [("x", VNum 0); ("label", VStr "a")]
              (Cell PlainObject [("x", VNum 10); ("label", VStr "b")] [])
              eq_refl eq_refl) as (h' & Hrun & _ & Hget).
  exists (VRef 2), h'. split; [exact Hrun|]. split; [reflexivity|].
  assert (Hlabel : get_prop (VRef 2) "label" h' = Normal VUndefined h')
    by (exact (Hget "label")).
  split; [exact Hlabel|]. rewrite Hlabel. discriminate.
Qed.
End InterpolateFacts.

(** ** State machine evaluation *)

Section StateMachineFacts.

Lemma every_true {A} (f : A -> option bool) (xs : list A) :
  Forall (fun x => f x = Some true) xs -> every f xs = Some true.
Proof.
  induction 1 as [|x xs Hx _ IH]; cbn; [reflexivity|]. now rewrite Hx.
Qed.

Lemma every_true_inv {A} (f : A -> option bool) (xs : list A) :
  every f xs = Some true -> Forall (fun x => f x = Some true) xs.
Proof.
  induction xs as [|x xs IH]; cbn; intros H; [constructor|].
  destruct (f x) as [[]|] eqn:E; try discriminate.
  constructor; auto.
Qed.

Lemma every_modelled {A} (f : A -> option bool) (xs : list A) :
  Forall (fun x => f x <> None) xs -> every f xs <> None.
Proof.
  induction 1 as [|x xs Hx _ IH]; cbn; [discriminate|].
  destruct (f x) as [[]|]; [exact IH | discriminate | contradiction].
Qed.

Lemma same_field_true (a b : option string) : same_field a b = true <-> a = b.
Proof. unfold same_field. apply bool_decide_eq_true. Qed.

Lemma field_check (f e : option string) :
  truthy_field f && negb (same_field f e) = false <->
  (forall s, f = Some s -> s <> "" -> e = Some s).
Proof.
  unfold truthy_field. destruct f as [s|]; cbn [andb].
  - destruct (String.eqb_spec s "") as [->|Hs]; cbn [negb andb].
    + split; [|reflexivity]. intros _ s' [= <-] Hne. now elim Hne.
    + destruct (same_field (Some s) e) eqn:E; cbn [negb].
      * apply same_field_true in E. split; [|reflexivity].
        intros _ s' [= <-] _. now symmetry.
      * split; [discriminate|]. intros H. specialize (H s eq_refl Hs).
        assert (same_field (Some s) e = true) by (apply same_field_true; now symmetry).
        congruence.
  - split; [|reflexivity]. intros _ s [=].
Qed.

Lemma triggerMatches_accepts (ev : Event) (trigger : Trigger) :
  triggerMatches ev trigger = true <-> trigger_accepts trigger ev.
Proof.
  unfold triggerMatches, trigger_accepts.
  rewrite <- !field_check.
  destruct (String.eqb_spec (trigger_type trigger) (event_type ev)) as [Ety|Ety];
    cbn [negb]; [|split; [discriminate | intros [? _]; contradiction]].
  destruct (truthy_field (targetId trigger) &&
            negb (same_field (targetId trigger) (event_target ev)));
    [split; [discriminate | intros (_ & [=] & _)]|].
  destruct (truthy_field (key trigger) &&
            negb (same_field (key trigger) (event_key ev)));
    [split; [discriminate | intros (_ & _ & [=])]|].
  split; auto.
Qed.

Lemma scanTransitions_fire (sm : StateMachine) (event : option Event)
    (t : StateTransition) (rest : list StateTransition) :
  fires sm event t ->
  scanTransitions sm event (t :: rest) = Some (Some (to t)).
Proof.
  intros (Hfrom & Htrig & Hcond). cbn [scanTransitions].
  rewrite Hfrom, String.eqb_refl. cbn [negb].
  assert (Htriggered :
    match event with
    | Some ev =>
        if (0 <? length (triggers t))%nat
        then existsb (triggerMatches ev) (triggers t) else true
    | None => true
    end = true).
  { destruct event as [ev|]; [|reflexivity].
    destruct Htrig as [[=]|[Hnil|(trigger & ev' & Hin & [= <-] & Hacc)]].
    - now rewrite Hnil.
    - destruct (0 <? length (triggers t))%nat; [|reflexivity].
      apply existsb_exists. exists trigger. split; [exact Hin|].
      now apply triggerMatches_accepts. }
  rewrite Htriggered. cbn [negb].
  destruct Hcond as [Hnil|Hall].
  - now rewrite Hnil.
  - rewrite (every_true _ _ Hall). now destruct (0 <? length (conditions t))%nat.
Qed.

Lemma scanTransitions_skip (sm : StateMachine) (event : option Event)
    (t : StateTransition) (rest : list StateTransition) :
  Forall (fun c => evalCondition (parameters sm) c <> None) (conditions t) ->
  ~ fires sm event t ->
  scanTransitions sm event (t :: rest) = scanTransitions sm event rest.
Proof.
  intros Hmod Hnot. cbn [scanTransitions].
  destruct (String.eqb_spec (from t) (currentState sm)) as [Hfrom|Hfrom];
    cbn [negb]; [|reflexivity].
  set (triggered := match event with
                    | Some ev =>
                        if (0 <? length (triggers t))%nat
                        then existsb (triggerMatches ev) (triggers t) else true
                    | None => true
                    end).
  destruct triggered eqn:Etr; cbn [negb]; [|reflexivity].
  assert (Htrig : event = None \/ triggers t = [] \/
            exists trigger ev, In trigger (triggers t) /\ event = Some ev /\
                               trigger_accepts trigger ev).
  { subst triggered. destruct event as [ev|]; [|now left]. right.
    destruct (triggers t) as [|tr trs] eqn:Etrs; [now left|]. right.
    cbn [length Nat.ltb Nat.leb] in Etr.
    apply existsb_exists in Etr as (trigger & Hin & Hm).
    exists trigger, ev. split; [exact Hin|]. split; [reflexivity|].
    now apply triggerMatches_accepts. }
  destruct (conditions t) as [|c cs] eqn:Ecs.
  - elim Hnot. split; [exact Hfrom|]. split; [exact Htrig|]. left. exact Ecs.
  - cbn [length Nat.ltb Nat.leb].
    destruct (every (evalCondition (parameters sm)) (c :: cs)) as [[]|] eqn:Eev.
    + elim Hnot. split; [exact Hfrom|]. split; [exact Htrig|]. right.
      rewrite Ecs. now apply every_true_inv.
    + reflexivity.
    + now apply every_modelled in Hmod.
Qed.

Lemma scanTransitions_first (sm : StateMachine) (event : option Event)
    (pre post : list StateTransition) (t : StateTransition) :
  Forall (fun t' => Forall (fun c => evalCondition (parameters sm) c <> None)
                      (conditions t')) pre ->
  Forall (fun t' => ~ fires sm event t') pre -> fires sm event t ->
  scanTransitions sm event (pre ++ t :: post) = Some (Some (to t)).
Proof.
  intros Hmod Hpre Ht. induction pre as [|t' pre IH]; cbn [app].
  - now apply scanTransitions_fire.
  - apply Forall_cons in Hmod as [Hm Hmod]. apply Forall_cons in Hpre as [Hn Hpre].
    rewrite scanTransitions_skip by assumption. now apply IH.
Qed.

Lemma scanTransitions_none (sm : StateMachine) (event : option Event)
    (ts : list StateTransition) :
  Forall (fun t' => Forall (fun c => evalCondition (parameters sm) c <> None)
                      (conditions t')) ts ->
  Forall (fun t' => ~ fires sm event t') ts ->
  scanTransitions sm event ts = Some None.
Proof.
  intros Hmod Hts. induction ts as [|t' ts IH]; [reflexivity|].
  apply Forall_cons in Hmod as [Hm Hmod]. apply Forall_cons in Hts as [Hn Hts].
  rewrite scanTransitions_skip by assumption. now apply IH.
Qed.

(** C3, as the code has it.  The transitions are scanned in declaration
    order; the first one that fires sets [currentState] to its target,
    which is returned; when none fires the machine is unchanged and the
    result is [null].  A transition fires when its source is the current
    state, when no event is given or its trigger list is empty or holds a
    trigger accepting the event, and when its condition list is empty or
    holds only true conditions. *)
Theorem checkTransitions_first_match (sm : StateMachine) (event : option Event) :
  conditions_modelled sm ->
  (forall (pre post : list StateTransition) (t : StateTransition),
      transitions sm = pre ++ t :: post ->
      Forall (fun t' => ~ fires sm event t') pre -> fires sm event t ->
      checkTransitions sm event = Some (set_currentState sm (to t), Some (to t)) /\
      currentState (set_currentState sm (to t)) = to t) /\
  (Forall (fun t => ~ fires sm event t) (transitions sm) ->
   checkTransitions sm event = Some (sm, None)).
Proof.
  intros Hmod. unfold conditions_modelled in Hmod. split.
  - intros pre post t Hts Hpre Ht. split; [|reflexivity].
    unfold checkTransitions. rewrite Hts in *.
    apply Forall_app in Hmod as [Hmod _].
    now rewrite scanTransitions_first.
  - intros Hnone. unfold checkTransitions.
    now rewrite scanTransitions_none.
Qed.

Lemma click_machine_modelled : conditions_modelled click_machine.
Proof. repeat constructor. Qed.

Lemma click_fires_on_click :
  fires click_machine (Some (mkEvent "click" None None))
    (mkTransition "entry" "pressed" [] [mkTrigger "click" None None None]).
Proof.
  split; [reflexivity|]. split; [|now left].
  right. right. exists (mkTrigger "click" None None None), (mkEvent "click" None None).
  split; [now left|]. split; [reflexivity|].
  split; [reflexivity|]. split; intros ? [=].
Qed.

Lemma checkTransitions_first_match_witness :
  (conditions_modelled click_machine /\
   transitions click_machine =
     [] ++ mkTransition "entry" "pressed" [] [mkTrigger "click" None None None] :: [] /\
   Forall (fun t' => ~ fires click_machine (Some (mkEvent "click" None None)) t') [] /\
   fires click_machine (Some (mkEvent "click" None None))
     (mkTransition "entry" "pressed" [] [mkTrigger "click" None None None])) /\
  checkTransitions click_machine (Some (mkEvent "click" None None)) =
  Some (set_currentState click_machine "pressed", Some "pressed").
Proof.
  split.
  - split; [exact click_machine_modelled|]. split; [reflexivity|].
    split; [constructor | exact click_fires_on_click].
  - apply (proj1 (checkTransitions_first_match click_machine
                    (Some (mkEvent "click" None None)) click_machine_modelled)
             [] [] (mkTransition "entry" "pressed" [] [mkTrigger "click" None None None])).
    + reflexivity.
    + constructor.
    + exact click_fires_on_click.
Defined.

(** C3, as stated, fails when no event is given: the only transition of the
    machine carries a click trigger, so by the stated rule nothing fires,
    yet [checkTransitions()] takes it. *)
Lemma checkTransitions_fires_without_event :
  Forall (fun t => ~ fires_as_specified click_machine None t) (transitions click_machine) /\
  checkTransitions click_machine None =
    Some (set_currentState click_machine "pressed", Some "pressed") /\
  checkTransitions click_machine None <> Some (click_machine, None).
Proof.
  split; [|split; [reflexivity | discriminate]].
  repeat constructor. intros (_ & [Hnil|(trigger & ev & _ & Hev & _)] & _); discriminate.
Qed.

(** *** Which state is current *)

Lemma scanTransitions_target (sm : StateMachine) (event : option Event)
    (ts : list StateTransition) (id : string) :
  scanTransitions sm event ts = Some (Some id) ->
  exists t, In t ts /\ to t = id.
Proof.
  induction ts as [|t ts IH]; cbn [scanTransitions]; [discriminate|].
  intros H.
  assert (Hrest : scanTransitions sm event ts = Some (Some id) ->
                  exists t', In t' (t :: ts) /\ to t' = id).
  { intros H'. destruct (IH H') as (t' & Hin & Hto). exists t'. split; [now right | exact Hto]. }
  assert (Hhere : Some (Some (to t)) = Some (Some id) ->
                  exists t', In t' (t :: ts) /\ to t' = id).
  { intros [= <-]. exists t. split; [now left | reflexivity]. }
  destruct (negb (String.eqb (from t) (currentState sm))); [auto|].
  destruct (negb _); [auto|].
  destruct (0 <? length (conditions t))%nat; [|auto].
  destruct (every _ _) as [[]|]; [auto | auto | discriminate].
Qed.

Lemma reachable_currentState (sm : StateMachine) :
  reachable sm ->
  currentState sm = "entry" \/ exists t, In t (transitions sm) /\ to t = currentState sm.
Proof.
  induction 1 as [id name | sm id name anim _ IH | sm f t' trs cs _ IH
                 | sm name v _ IH | sm event sm' result _ IH Hcheck].
  - now left.
  - exact IH.
  - cbn [addTransition currentState transitions].
    destruct IH as [IH|(t & Hin & Hto)]; [now left|].
    right. exists t. split; [apply in_or_app; now left | exact Hto].
  - exact IH.
  - unfold checkTransitions in Hcheck.
    destruct (scanTransitions sm event (transitions sm)) as [[id|]|] eqn:Escan;
      [| |discriminate].
    + injection Hcheck as <- <-. right.
      apply scanTransitions_target in Escan as (t & Hin & Hto).
      exists t. split; [exact Hin | exact Hto].
    + injection Hcheck as <- <-. exact IH.
Qed.

Lemma checkTransitions_null (sm sm' : StateMachine) (event : option Event) :
  checkTransitions sm event = Some (sm', None) -> sm' = sm.
Proof.
  unfold checkTransitions.
  destruct (scanTransitions sm event (transitions sm)) as [[id|]|]; [| |discriminate].
  - intros [=].
  - now intros [= <-].
Qed.

(** C5, as the code has it.  The current state of a machine reached by the
    mutators is ["entry"] or the target of a declared transition; it names
    an existing state as soon as ["entry"] and the target of every declared
    transition are keys of the states map; and a call of [checkTransitions]
    in which no transition fires leaves the machine as it was. *)
Theorem currentState_entry_or_target (sm : StateMachine) :
  reachable sm ->
  (currentState sm = "entry" \/
   exists t, In t (transitions sm) /\ to t = currentState sm) /\
  (assoc_has "entry" (states sm) = true ->
   Forall (fun t => assoc_has (to t) (states sm) = true) (transitions sm) ->
   assoc_has (currentState sm) (states sm) = true) /\
  (forall event sm', checkTransitions sm event = Some (sm', None) -> sm' = sm).
Proof.
  intros Hreach. pose proof (reachable_currentState sm Hreach) as Hcur.
  split; [exact Hcur|]. split.
  - intros Hentry Htargets.
    destruct Hcur as [->|(t & Hin & <-)]; [exact Hentry|].
    rewrite List.Forall_forall in Htargets. now apply Htargets.
  - intros event sm'. apply checkTransitions_null.
Qed.

Lemma click_machine_reachable : reachable click_machine.
Proof. unfold click_machine. repeat constructor. Qed.

Lemma currentState_entry_or_target_witness :
  reachable click_machine /\
  (currentState click_machine = "entry" \/
   exists t, In t (transitions click_machine) /\ to t = currentState click_machine) /\
  (assoc_has "entry" (states click_machine) = true ->
   Forall (fun t => assoc_has (to t) (states click_machine) = true)
     (transitions click_machine) ->
   assoc_has (currentState click_machine) (states click_machine) = true) /\
  (forall event sm',
     checkTransitions click_machine event = Some (sm', None) -> sm' = click_machine).
Proof.
  split; [exact click_machine_reachable|].
  apply (currentState_entry_or_target click_machine). exact click_machine_reachable.
Defined.

(** C5, as stated, fails twice: the current state of a new machine is not a
    key of its (empty) states map, and a transition to an id that was never
    added is taken and makes that id the current state. *)
Lemma currentState_not_a_state :
  (reachable (newStateMachine "sm" "Machine") /\
   assoc_has (currentState (newStateMachine "sm" "Machine"))
     (states (newStateMachine "sm" "Machine")) = false) /\
  (reachable ghost_machine /\
   assoc_has "ghost" (states ghost_machine) = false /\
   currentState ghost_machine = "entry" /\
   exists sm', checkTransitions ghost_machine None = Some (sm', Some "ghost") /\
               reachable sm' /\
               currentState sm' = "ghost" /\
               assoc_has (currentState sm') (states sm') = false).
Proof.
  assert (Hghost : reachable ghost_machine) by (unfold ghost_machine; repeat constructor).
  split; [split; [constructor | reflexivity]|].
  split; [exact Hghost|]. split; [reflexivity|]. split; [reflexivity|].
  exists (set_currentState ghost_machine "ghost").
  split; [reflexivity|]. split; [|split; reflexivity].
  apply (reach_checkTransitions ghost_machine None _ (Some "ghost") Hghost).
  reflexivity.
Qed.
End StateMachineFacts.

(** ** Group membership *)

Section GroupFacts.

Ltac run :=
  cbv -[Rle_dec Rge_dec Rlt_dec Rgt_dec Req_dec_T IZR Rdiv Rminus Rplus Rmult Rinv Ropp
        sin PI Rpower getValueAtTime].

Lemma cell_set_named (c : cell) (k : string) (x : value) :
  array_index k = None -> k <> "length" ->
  cell_set c k x = Some (Cell (c_class c) (assoc_set k x (c_props c)) (c_elems c)).
Proof.
  intros Hidx Hlen. unfold cell_set. rewrite Hidx.
  destruct (String.eqb_spec k "length"); [contradiction|].
  now destruct (c_class c).
Qed.

Lemma cell_get_named (c : cell) (k : string) :
  array_index k = None -> k <> "length" ->
  cell_get c k = default VUndefined (assoc_get k (c_props c)).
Proof.
  intros Hidx Hlen. unfold cell_get. rewrite Hidx.
  destruct (String.eqb_spec k "length"); [contradiction|].
  now destruct (c_class c).
Qed.

(** Writing [parent] leaves [children] as it was. *)
Lemma set_parent_cell (c : cell) (x : value) :
  exists c',
    cell_set c "parent" x = Some c' /\
    cell_get c' "parent" = x /\
    cell_get c' "children" = cell_get c "children".
Proof.
  eexists. split; [apply cell_set_named; [reflexivity | discriminate]|].
  rewrite !cell_get_named by (reflexivity || discriminate).
  cbn [c_props]. rewrite assoc_get_set_eq.
  rewrite assoc_get_set_ne by discriminate. split; reflexivity.
Qed.

Lemma addChild_effect (h : heap) (g a s : loc) (es : list (option value)) :
  has_children h g a es -> s <> a -> (s < length h)%nat ->
  exists h',
    addChild (VRef g) (VRef s) h = Normal tt h' /\
    length h' = length h /\
    has_children h' g a (es ++ [Some (VRef s)]) /\
    parent_of h' s = VRef g /\
    (forall g2 a2 es2, a2 <> a -> a2 <> s ->
       has_children h g2 a2 es2 -> has_children h' g2 a2 es2).
Proof.
  intros (cg & pa & Hg & Hkids & Ha) Hsa Hs.
  destruct (lookup_lt_is_Some_2 h s Hs) as [cs Hcs].
  destruct (set_parent_cell cs (VRef g)) as (cs' & Hset & Hpar & Hch).
  set (h1 := <[s := cs']> h).
  assert (Ha1 : h1 !! a = Some (Cell ArrayObject pa es)).
  { subst h1. rewrite list_lookup_insert_ne by assumption. exact Ha. }
  assert (Hg1 : exists cg1, h1 !! g = Some cg1 /\ cell_get cg1 "children" = VRef a).
  { subst h1. destruct (decide (s = g)) as [->|Hne].
    - exists cs'. rewrite list_lookup_insert_eq by assumption.
      split; [reflexivity|]. rewrite Hch. congruence.
    - exists cg. rewrite list_lookup_insert_ne by assumption. now split. }
  destruct Hg1 as (cg1 & Hg1 & Hkids1).
  set (h2 := <[a := Cell ArrayObject pa (es ++ [Some (VRef s)])]> h1).
  assert (Hlen1 : length h1 = length h) by (subst h1; apply length_insert).
  assert (Hlen2 : length h2 = length h) by (subst h2; rewrite length_insert; exact Hlen1).
  assert (Halen : (a < length h1)%nat) by (eapply lookup_lt_Some; eauto).
  exists h2. split; [|split; [exact Hlen2|split; [|split]]].
  - unfold addChild, bind, set_prop. rewrite Hcs, Hset. fold h1.
    unfold get_prop. rewrite Hg1, Hkids1.
    unfold array_push, with_array, bind, read_heap. rewrite Ha1.
    reflexivity.
  - destruct (decide (g = a)) as [->|Hga].
    + exists (Cell ArrayObject pa (es ++ [Some (VRef s)])), pa.
      subst h2. rewrite list_lookup_insert_eq by assumption.
      split; [reflexivity|]. split; [|reflexivity].
      rewrite Ha1 in Hg1. injection Hg1 as <-. exact Hkids1.
    + exists cg1, pa. subst h2.
      rewrite list_lookup_insert_ne by congruence.
      rewrite list_lookup_insert_eq by assumption. now split.
  - unfold parent_of. subst h2 h1.
    rewrite list_lookup_insert_ne by congruence.
    rewrite list_lookup_insert_eq by assumption. exact Hpar.
  - intros g2 a2 es2 Ha2a Ha2s (c2 & pa2 & Hg2 & Hk2 & Harr2).
    assert (Harr2' : h2 !! a2 = Some (Cell ArrayObject pa2 es2)).
    { subst h2 h1. rewrite !list_lookup_insert_ne by congruence. exact Harr2. }
    destruct (decide (g2 = a)) as [->|Hg2a].
    + exists (Cell ArrayObject pa (es ++ [Some (VRef s)])), pa2.
      subst h2. rewrite list_lookup_insert_eq by assumption.
      split; [reflexivity|]. split; [|exact Harr2'].
      rewrite Ha in Hg2. injection Hg2 as <-. exact Hk2.
    + destruct (decide (g2 = s)) as [->|Hg2s].
      * exists cs', pa2. subst h2 h1.
        rewrite list_lookup_insert_ne by congruence.
        rewrite list_lookup_insert_eq by assumption.
        split; [reflexivity|]. split; [|exact Harr2'].
        rewrite Hch. congruence.
      * exists c2, pa2. subst h2 h1.
        rewrite !list_lookup_insert_ne by congruence. now split.
Qed.

Lemma index_from_absent (es : list (option value)) (x : value) (i : Z) :
  Some x ∉ es -> index_from es x i = (-1)%Z.
Proof.
  revert i. induction es as [|e es IH]; intros i Hnot; [reflexivity|].
  apply not_elem_of_cons in Hnot as [Hne Hnot].
  destruct e as [v|]; cbn [index_from]; [|now apply IH].
  unfold strict_eq. rewrite bool_decide_eq_false_2 by congruence. now apply IH.
Qed.

Lemma removeChild_absent (h : heap) (g a s : loc) (es : list (option value)) :
  has_children h g a es -> Some (VRef s) ∉ es ->
  removeChild (VRef g) (VRef s) h = Normal tt h.
Proof.
  intros (cg & pa & Hg & Hkids & Ha) Hnot.
  unfold removeChild, bind, get_prop. rewrite Hg, Hkids.
  unfold array_indexOf, with_array, bind, read_heap. rewrite Ha.
  cbn [c_class c_elems ret]. now rewrite index_from_absent.
Qed.

Lemma index_from_first (es1 es2 : list (option value)) (x : value) (i : Z) :
  Some x ∉ es1 ->
  index_from (es1 ++ Some x :: es2) x i = (i + Z.of_nat (length es1))%Z.
Proof.
  revert i. induction es1 as [|e es1 IH]; intros i Hnot; cbn [app index_from length].
  - unfold strict_eq. rewrite bool_decide_eq_true_2 by reflexivity. lia.
  - apply not_elem_of_cons in Hnot as [Hne Hnot].
    destruct e as [v|].
    + unfold strict_eq. rewrite bool_decide_eq_false_2 by congruence.
      rewrite IH by assumption. lia.
    + rewrite IH by assumption. lia.
Qed.

Lemma removeChild_member (h : heap) (g a s : loc) (es1 es2 : list (option value)) :
  has_children h g a (es1 ++ Some (VRef s) :: es2) -> Some (VRef s) ∉ es1 ->
  s <> a -> (s < length h)%nat ->
  exists h',
    removeChild (VRef g) (VRef s) h = Normal tt h' /\
    has_children h' g a (es1 ++ es2) /\
    parent_of h' s = VNull.
Proof.
  intros (cg & pa & Hg & Hkids & Ha) Hnot Hsa Hs.
  destruct (lookup_lt_is_Some_2 h s Hs) as [cs Hcs].
  destruct (set_parent_cell cs VNull) as (cs' & Hset & Hpar & Hch).
  set (h1 := <[s := cs']> h).
  assert (Ha1 : h1 !! a = Some (Cell ArrayObject pa (es1 ++ Some (VRef s) :: es2))).
  { subst h1. rewrite list_lookup_insert_ne by assumption. exact Ha. }
  assert (Hg1 : exists cg1, h1 !! g = Some cg1 /\ cell_get cg1 "children" = VRef a).
  { subst h1. destruct (decide (s = g)) as [->|Hne].
    - exists cs'. rewrite list_lookup_insert_eq by assumption.
      split; [reflexivity|]. rewrite Hch. congruence.
    - exists cg. rewrite list_lookup_insert_ne by assumption. now split. }
  destruct Hg1 as (cg1 & Hg1 & Hkids1).
  assert (Halen : (a < length h1)%nat) by (eapply lookup_lt_Some; eauto).
  set (h2 := <[a := Cell ArrayObject pa (es1 ++ es2)]> h1).
  exists h2. split; [|split].
  - unfold removeChild. unfold bind at 1. unfold get_prop at 1. rewrite Hg, Hkids.
    unfold bind at 1. unfold array_indexOf, with_array at 1.
    unfold bind at 1. unfold read_heap at 1. rewrite Ha.
    cbn [c_class c_elems]. unfold ret at 1.
    rewrite index_from_first by assumption. rewrite Z.add_0_l.
    destruct (Z.gtb_spec (Z.of_nat (length es1)) (-1)); [|lia].
    unfold bind at 1. unfold array_get, with_array at 1.
    unfold bind at 1. unfold read_heap at 1. rewrite Ha.
    cbn [c_class c_elems]. unfold ret at 1.
    destruct (Z.ltb_spec (Z.of_nat (length es1)) 0); [lia|].
    rewrite Nat2Z.id, list_lookup_middle by reflexivity.
    unfold bind at 1. unfold set_prop at 1. rewrite Hcs, Hset. fold h1.
    unfold bind at 1. unfold get_prop at 1. rewrite Hg1, Hkids1.
    unfold array_splice1, with_array, bind, read_heap. rewrite Ha1.
    cbn [c_class c_elems c_props]. unfold write_cell.
    rewrite Nat2Z.id.
    subst h2. do 3 f_equal.
    clear. induction es1 as [|e es1 IH]; cbn; [reflexivity | f_equal; exact IH].
  - destruct (decide (g = a)) as [->|Hga].
    + exists (Cell ArrayObject pa (es1 ++ es2)), pa.
      subst h2. rewrite list_lookup_insert_eq by assumption.
      split; [reflexivity|]. split; [|reflexivity].
      rewrite Ha1 in Hg1. injection Hg1 as <-. exact Hkids1.
    + exists cg1, pa. subst h2.
      rewrite list_lookup_insert_ne by congruence.
      rewrite list_lookup_insert_eq by assumption. now split.
  - unfold parent_of. subst h2 h1.
    rewrite list_lookup_insert_ne by congruence.
    rewrite list_lookup_insert_eq by assumption. exact Hpar.
Qed.

(** C6, as the code has it.  After [g.addChild(s)] and then
    [g'.addChild(s)] the parent of [s] is [g'] and [s] is the last child of
    [g'], and [s] is still the last child of [g]: [addChild] sets the
    back-reference and appends, and never detaches.  [removeChild] of a
    member sets its parent to [null] and removes its first occurrence;
    [removeChild] of a non-member changes nothing. *)
Theorem addChild_keeps_old_membership (h : heap) (g g' a a' s : loc)
    (es es' : list (option value)) :
  has_children h g a es -> has_children h g' a' es' ->
  a <> a' -> s <> a -> s <> a' -> (s < length h)%nat ->
  (exists h'',
     (addChild (VRef g) (VRef s) ;; addChild (VRef g') (VRef s)) h = Normal tt h'' /\
     parent_of h'' s = VRef g' /\
     has_children h'' g' a' (es' ++ [Some (VRef s)]) /\
     has_children h'' g a (es ++ [Some (VRef s)])) /\
  (forall es1 es2, es = es1 ++ Some (VRef s) :: es2 -> Some (VRef s) ∉ es1 ->
     exists h', removeChild (VRef g) (VRef s) h = Normal tt h' /\
                has_children h' g a (es1 ++ es2) /\ parent_of h' s = VNull) /\
  (Some (VRef s) ∉ es -> removeChild (VRef g) (VRef s) h = Normal tt h).
Proof.
  intros Hg Hg' Haa Hsa Hsa' Hs. split; [|split].
  - destruct (addChild_effect h g a s es Hg Hsa Hs)
      as (h1 & Hrun1 & Hlen1 & Hkids1 & _ & Hframe1).
    assert (Hg1' : has_children h1 g' a' es') by (apply Hframe1; auto).
    destruct (addChild_effect h1 g' a' s es' Hg1' Hsa' ltac:(lia))
      as (h2 & Hrun2 & _ & Hkids2 & Hpar2 & Hframe2).
    exists h2. split; [|split; [exact Hpar2 | split; [exact Hkids2|]]].
    + unfold bind. now rewrite Hrun1.
    + apply Hframe2; auto.
  - intros es1 es2 -> Hnot. now apply removeChild_member.
  - intros Hnot. eapply removeChild_absent; eauto.
Qed.

Lemma three_shapes_groups :
  has_children three_shapes 0 7 [] /\ has_children three_shapes 8 15 [] /\
  (16 < length three_shapes)%nat.
Proof.
  split; [|split].
  - eexists _, []. run. repeat split; reflexivity.
  - eexists _, []. run. repeat split; reflexivity.
  - run. lia.
Qed.

Lemma addChild_keeps_old_membership_witness :
  (has_children three_shapes 0 7 [] /\ has_children three_shapes 8 15 [] /\
   7%nat <> 15%nat /\ 16%nat <> 7%nat /\ 16%nat <> 15%nat /\
   (16 < length three_shapes)%nat) /\
  exists h'',
    (addChild (VRef 0) (VRef 16) ;; addChild (VRef 8) (VRef 16)) three_shapes =
      Normal tt h'' /\
    parent_of h'' 16 = VRef 8 /\
    has_children h'' 8 15 ([] ++ [Some (VRef 16)]) /\
    has_children h'' 0 7 ([] ++ [Some (VRef 16)]).
Proof.
  destruct three_shapes_groups as (Hg & Hg' & Hs).
  split; [repeat split; try assumption; discriminate|].
  apply (proj1 (addChild_keeps_old_membership three_shapes 0 8 7 15 16 [] []
                  Hg Hg' ltac:(discriminate) ltac:(discriminate)
                  ltac:(discriminate) Hs)).
Defined.

(** C6, as stated, fails: after [group.addChild(shape)] and
    [otherGroup.addChild(shape)] the shape is a child of both groups. *)
Lemma addChild_shared_membership :
  exists group otherGroup shape es1 es2 p hp,
    reparent_scenario [] = Normal (group, otherGroup, shape, (es1, es2, p)) hp /\
    group <> otherGroup /\ p = otherGroup /\ In shape es2 /\ In shape es1.
Proof.
  do 7 eexists. split; [run; reflexivity|].
  split; [discriminate|]. split; [reflexivity|]. split; now left.
Qed.
End GroupFacts.

(** ** Applying an animation *)

Section ApplyFacts.
Local Open Scope R_scope.

Ltac run :=
  cbv -[Rle_dec Rge_dec Rlt_dec Rgt_dec Req_dec_T IZR Rdiv Rminus Rplus Rmult Rinv Ropp
        sin PI Rpower getValueAtTime].

Ltac decide_reals :=
  repeat match goal with
         | |- context [Rle_dec ?a ?b] => destruct (Rle_dec a b); try lra
         | |- context [Rge_dec ?a ?b] => destruct (Rge_dec a b); try lra
         | |- context [Rgt_dec ?a ?b] => destruct (Rgt_dec a b); try lra
         | |- context [Rlt_dec ?a ?b] => destruct (Rlt_dec a b); try lra
         | |- context [Req_dec_T ?a ?b] => destruct (Req_dec_T a b); try lra
         end.

Lemma opacity_track_value (h : heap) :
  getValueAtTime (addKeyframe (mkTrack "opacity.a.b" []) 0 (VNum 1) Linear) 0 h =
  Normal (VNum 1) h.
Proof.
  apply (getValueAtTime_at_or_before_first _ 0 h (mkKeyframe 0 (VNum 1) Linear) []);
    [reflexivity | cbv [kf_time]; lra].
Qed.

(** C9 fails on a rectangle straight from its constructor and a track at
    [opacity.a.b]: the walk steps into the number 1 held by [opacity], finds
    no [a] there, and the assignment that should create it throws. *)
Theorem applyToShape_throws_below_a_number :
  exists h,
    (let* shape := new_Rectangle "r" "Rect" (VNum 100) (VNum 100) in
     applyToShape opacity_path_animation shape 0) [] = Abrupt TypeError h.
Proof.
  eexists. run. rewrite opacity_track_value. run. decide_reals. reflexivity.
Qed.

(** Where the nodes of a path are missing, they are created and the leaf
    is assigned. *)
Lemma setPropertyValue_creates_missing_nodes :
  exists h, nested_path_write [] = Normal (VNum 255) h.
Proof. eexists. run. reflexivity. Qed.

(** ** Cloning *)

(** The parts of [clone] that work: the clone of a group has the suffixed
    id and name, and its children are clones whose parent is the cloned
    group. *)
Lemma clone_group_children :
  exists h,
    clone_group_scenario [] =
    Normal (VRef 15, VStr "g_clone", VStr ("Group" ++ copy_suffix),
            [(VRef 24, VStr "r_clone", VRef 15)]) h.
Proof. eexists. run. reflexivity. Qed.

(** C10 fails on a rectangle straight from its constructor: the clone's
    transform is a new record, but its [position] is the very object of
    the original, so [clone.transform.position.x = 5] moves the original
    from 0 to 5.  It fails on a group too: [Group.clone] copies neither
    fill nor stroke, so the clone of a group with fill type 'none' has the
    constructor's 'solid' fill, where the clone of a rectangle has 'none'. *)
Theorem clone_shares_nested_objects :
  (exists h, clone_then_move [] = Normal (VNum 0, VNum 5) h) /\
  (exists h, clone_unfilled [] = Normal (VStr "solid", VStr "none") h).
Proof.
  split; eexists; run; reflexivity.
Qed.
End ApplyFacts.

(** ** Export *)

Section ExportFacts.
Variable JSON_text : json -> string.
Variable TextEncoder_encode : string -> list Byte.byte.
Variable btoa_bytes : list Byte.byte -> string.

Ltac run :=
  cbv -[Rle_dec Rge_dec Rlt_dec Rgt_dec Req_dec_T IZR Rdiv Rminus Rplus Rmult Rinv Ropp
        sin PI Rpower getValueAtTime JSON_text TextEncoder_encode btoa_bytes].

Lemma scenes_built :
  build_scene true [] = Normal (VRef 0, VRef 23, VRef 24) (heap_of (build_scene true [])) /\
  build_scene false [] = Normal (VRef 0, VRef 23, VRef 24) (heap_of (build_scene false [])).
Proof. split; run; reflexivity. Qed.

Lemma scenes_export_alike :
  exists bytes,
    exportToRiv JSON_text TextEncoder_encode btoa_bytes 10 (heap_of (build_scene true []))
      (scene_project (VRef 0) (VRef 23) (VRef 24)) = Some bytes /\
    exportToRiv JSON_text TextEncoder_encode btoa_bytes 10 (heap_of (build_scene false []))
      (scene_project (VRef 0) (VRef 23) (VRef 24)) = Some bytes.
Proof. eexists. split; run; reflexivity. Qed.

Lemma scenes_differ :
  shapes_structure 10 (heap_of (build_scene true [])) (scene_project (VRef 0) (VRef 23) (VRef 24))
  <> shapes_structure 10 (heap_of (build_scene false [])) (scene_project (VRef 0) (VRef 23) (VRef 24)).
Proof. run. discriminate. Qed.

(** C4 fails on a project whose artboard holds a group with a nested
    group: [serializeShape] writes only the five base fields of a group,
    so the scene with a rectangle in the inner group and the scene with the
    inner group empty are exported to the same bytes, and no importer can
    give back the structure of the shapes of both. *)
Theorem exportToRiv_forgets_children :
  exists outer from to h1 h2 a,
    build_scene true [] = Normal (outer, from, to) h1 /\
    build_scene false [] = Normal (outer, from, to) h2 /\
    has_children h1 8 a [Some (VRef 16)] /\
    has_children h2 8 a [] /\
    (exists fields,
       serializeShape 10 h1 outer = Some (JObj fields) /\
       map fst fields = ["id"; "name"; "transform"; "opacity"; "visible"]) /\
    (exists bytes,
       exportToRiv JSON_text TextEncoder_encode btoa_bytes 10 h1
         (scene_project outer from to) = Some bytes /\
       exportToRiv JSON_text TextEncoder_encode btoa_bytes 10 h2
         (scene_project outer from to) = Some bytes) /\
    (forall importProject : list Byte.byte -> option (RivProject * heap),
       ~ forall h, h = h1 \/ h = h2 ->
           exists bytes p' h',
             exportToRiv JSON_text TextEncoder_encode btoa_bytes 10 h
               (scene_project outer from to) = Some bytes /\
             importProject bytes = Some (p', h') /\
             shapes_structure 10 h' p' =
             shapes_structure 10 h (scene_project outer from to)).
Proof.
  destruct scenes_built as [Hb1 Hb2].
  destruct scenes_export_alike as (bytes & He1 & He2).
  exists (VRef 0), (VRef 23), (VRef 24),
    (heap_of (build_scene true [])), (heap_of (build_scene false [])), 15%nat.
  split; [exact Hb1|]. split; [exact Hb2|].
  split; [eexists _, []; run; repeat split; reflexivity|].
  split; [eexists _, []; run; repeat split; reflexivity|].
  split; [eexists; split; [run; reflexivity | reflexivity]|].
  split; [exists bytes; now split|].
  intros importProject Hround.
  destruct (Hround _ (or_introl eq_refl)) as (b1 & p1 & g1 & Hx1 & Hi1 & Hs1).
  destruct (Hround _ (or_intror eq_refl)) as (b2 & p2 & g2 & Hx2 & Hi2 & Hs2).
  rewrite He1 in Hx1. rewrite He2 in Hx2.
  injection Hx1 as <-. injection Hx2 as <-.
  rewrite Hi1 in Hi2. injection Hi2 as <- <-.
  apply scenes_differ. now rewrite <- Hs1, <- Hs2.
Qed.
End ExportFacts.

(** * Further properties of the engine *)

(** ** Editing a track *)

Section TrackEditing.
Local Open Scope R_scope.

Ltac compare_reals :=
  repeat match goal with
         | |- context [Rle_dec ?a ?b] => destruct (Rle_dec a b); try lra
         | |- context [Rge_dec ?a ?b] => destruct (Rge_dec a b); try lra
         | |- context [Rgt_dec ?a ?b] => destruct (Rgt_dec a b); try lra
         | |- context [Rlt_dec ?a ?b] => destruct (Rlt_dec a b); try lra
         | |- context [Req_dec_T ?a ?b] => destruct (Req_dec_T a b); try lra
         end.

(** X1.  [addKeyframe] keeps a time-ordered track time-ordered. *)
Theorem addKeyframe_time_ordered (track : AnimationTrack) (t : R) (v : value)
    (e : EasingFunction) :
  time_ordered (keyframes track) ->
  time_ordered (keyframes (addKeyframe track t v e)).
Proof. intros H. cbn [addKeyframe keyframes]. now apply insertKeyframe_time_ordered. Qed.

Lemma addKeyframe_time_ordered_witness :
  time_ordered (keyframes scenario_track) /\
  time_ordered (keyframes (addKeyframe scenario_track 50 (VNum 3) Bounce)).
Proof.
  split; [exact scenario_time_ordered|].
  apply (addKeyframe_time_ordered scenario_track 50 (VNum 3) Bounce).
  exact scenario_time_ordered.
Defined.

Lemma insertKeyframe_split (kf : Keyframe) (kfs : list Keyframe) :
  exists pre post,
    kfs = pre ++ post /\
    insertKeyframe kf kfs = pre ++ kf :: post /\
    Forall (fun k => kf_time k <= kf_time kf) pre /\
    match post with
    | [] => True
    | k :: _ => kf_time kf < kf_time k
    end.
Proof.
  induction kfs as [|k kfs (pre & post & Hk & Hi & Hpre & Hpost)].
  - exists [], []. repeat split. constructor.
  - cbn [insertKeyframe]. destruct (Rgt_dec (kf_time k) (kf_time kf)) as [Hgt|Hle].
    + exists [], (k :: kfs). repeat split; [constructor | lra].
    + exists (k :: pre), post. cbn [app]. rewrite <- Hk, Hi.
      repeat split; [constructor; [lra | exact Hpre] | exact Hpost].
Qed.

(** X2.  [addKeyframe] puts the new keyframe behind the leading keyframes
    whose time is not later than its own and before the first keyframe with
    a later time; the other keyframes keep their order.  Among keyframes of
    one time the one inserted last comes last. *)
Theorem addKeyframe_position (track : AnimationTrack) (t : R) (v : value)
    (e : EasingFunction) :
  exists pre post,
    keyframes track = pre ++ post /\
    keyframes (addKeyframe track t v e) = pre ++ mkKeyframe t v e :: post /\
    Forall (fun k => kf_time k <= t) pre /\
    match post with
    | [] => True
    | k :: _ => t < kf_time k
    end.
Proof.
  destruct (insertKeyframe_split (mkKeyframe t v e) (keyframes track))
    as (pre & post & H1 & H2 & H3 & H4).
  exists pre, post. cbn [addKeyframe keyframes]. now repeat split.
Qed.

Lemma findIndex_from_none {A} (p : A -> bool) (xs : list A) (i : Z) :
  Forall (fun x => p x = false) xs -> findIndex_from p xs i = (-1)%Z.
Proof.
  revert i. induction xs as [|x xs IH]; intros i Hxs; [reflexivity|].
  apply Forall_cons in Hxs as [Hx Hxs]. cbn. rewrite Hx. now apply IH.
Qed.

Lemma findIndex_from_first {A} (p : A -> bool) (pre post : list A) (x : A) (i : Z) :
  Forall (fun y => p y = false) pre -> p x = true ->
  findIndex_from p (pre ++ x :: post) i = (i + Z.of_nat (length pre))%Z.
Proof.
  revert i. induction pre as [|y pre IH]; intros i Hpre Hx; cbn [app findIndex_from length].
  - rewrite Hx. lia.
  - apply Forall_cons in Hpre as [Hy Hpre]. rewrite Hy, IH by assumption. lia.
Qed.

Lemma delete_middle {A} (pre post : list A) (x : A) :
  delete (length pre) (pre ++ x :: post) = pre ++ post.
Proof. induction pre as [|y pre IH]; cbn; [reflexivity | f_equal; exact IH]. Qed.

Lemma removeKeyframe_absent (track : AnimationTrack) (t : R) :
  Forall (fun k => kf_time k <> t) (keyframes track) ->
  removeKeyframe track t = track.
Proof.
  intros H. unfold removeKeyframe, findIndex.
  rewrite findIndex_from_none; [reflexivity|].
  eapply List.Forall_impl; [|exact H]. cbv beta. intros k Hk.
  destruct (Req_dec_T (kf_time k) t); [contradiction | reflexivity].
Qed.

Lemma removeKeyframe_present (track : AnimationTrack) (t : R)
    (pre post : list Keyframe) (k : Keyframe) :
  keyframes track = pre ++ k :: post ->
  Forall (fun k' => kf_time k' <> t) pre -> kf_time k = t ->
  removeKeyframe track t = mkTrack (property track) (pre ++ post).
Proof.
  intros Hk Hpre Ht. unfold removeKeyframe, findIndex. rewrite Hk.
  rewrite findIndex_from_first.
  - rewrite Z.add_0_l.
    destruct (Z.gtb_spec (Z.of_nat (length pre)) (-1)); [|lia].
    now rewrite Nat2Z.id, delete_middle.
  - eapply List.Forall_impl; [|exact Hpre]. cbv beta. intros k' Hk'.
    destruct (Req_dec_T (kf_time k') t); [contradiction | reflexivity].
  - destruct (Req_dec_T (kf_time k) t); [reflexivity | contradiction].
Qed.

(** X3.  [removeKeyframe] leaves a track without a keyframe at the given
    time as it is; otherwise it removes the first keyframe at that time and
    no other, so a second keyframe at the same time stays. *)
Theorem removeKeyframe_first_match (track : AnimationTrack) (t : R) :
  (Forall (fun k => kf_time k <> t) (keyframes track) ->
   removeKeyframe track t = track) /\
  (forall pre post k,
      keyframes track = pre ++ k :: post ->
      Forall (fun k' => kf_time k' <> t) pre -> kf_time k = t ->
      removeKeyframe track t = mkTrack (property track) (pre ++ post)).
Proof.
  split; [apply removeKeyframe_absent | intros; eapply removeKeyframe_present; eauto].
Qed.

Lemma tied_track_first_at_10 :
  keyframes tied_track = [] ++ mkKeyframe 10 (VNum 1) Linear :: [mkKeyframe 10 (VNum 2) Linear] /\
  Forall (fun k' => kf_time k' <> 10) [] /\
  kf_time (mkKeyframe 10 (VNum 1) Linear) = 10.
Proof. split; [exact tied_keyframes | split; [constructor | reflexivity]]. Qed.

Lemma removeKeyframe_first_match_witness :
  (keyframes tied_track =
     [] ++ mkKeyframe 10 (VNum 1) Linear :: [mkKeyframe 10 (VNum 2) Linear] /\
   Forall (fun k' => kf_time k' <> 10) [] /\
   kf_time (mkKeyframe 10 (VNum 1) Linear) = 10) /\
  removeKeyframe tied_track 10 =
  mkTrack (property tied_track) ([] ++ [mkKeyframe 10 (VNum 2) Linear]).
Proof.
  split; [exact tied_track_first_at_10|].
  destruct tied_track_first_at_10 as (H1 & H2 & H3).
  exact (proj2 (removeKeyframe_first_match tied_track 10) _ _ _ H1 H2 H3).
Defined.



End TrackEditing.

(** ** Resolving a track at and between its keyframes *)

Section TrackResolution.
Local Open Scope R_scope.

Ltac compare_reals :=
  repeat match goal with
         | |- context [Rle_dec ?a ?b] => destruct (Rle_dec a b); try lra
         | |- context [Rge_dec ?a ?b] => destruct (Rge_dec a b); try lra
         | |- context [Rgt_dec ?a ?b] => destruct (Rgt_dec a b); try lra
         | |- context [Rlt_dec ?a ?b] => destruct (Rlt_dec a b); try lra
         | |- context [Req_dec_T ?a ?b] => destruct (Req_dec_T a b); try lra
         end.

(** The first keyframe at time [t], behind keyframes that are all earlier,
    gives the value at [t]. *)
Lemma getValueAtTime_hit (track : AnimationTrack) (t : R) (h : heap)
    (pre post : list Keyframe) (k : Keyframe) :
  keyframes track = pre ++ k :: post ->
  Forall (fun k' => kf_time k' < t) pre -> kf_time k = t ->
  getValueAtTime track t h = Normal (kf_value k) h.
Proof.
  intros E Hpre Ht. unfold getValueAtTime. rewrite E.
  rewrite length_app. cbn [length].
  destruct (Nat.eqb_spec (length pre + S (length post)) 0); [lia|].
  rewrite scanKeyframes_skip by assumption.
  cbn [scanKeyframes]. rewrite Z.add_0_l.
  destruct (Rle_dec (kf_time k) t); [|lra].
  destruct (Rge_dec (kf_time k) t); [|lra].
  set (idx := Z.of_nat (length pre)).
  assert (Hidx : (0 <= idx)%Z) by (subst idx; lia).
  destruct (Z.eqb_spec idx (-1)); [lia|].
  rewrite Z.eqb_refl. subst idx.
  unfold bind. now rewrite keyframe_at_middle.
Qed.

Lemma strictly_ordered_split (kfs : list Keyframe) (k : Keyframe) :
  strictly_time_ordered kfs -> In k kfs ->
  exists pre post,
    kfs = pre ++ k :: post /\ Forall (fun k' => kf_time k' < kf_time k) pre.
Proof.
  unfold strictly_time_ordered. intros Hs Hin.
  induction kfs as [|a kfs IH]; [destruct Hin|].
  apply StronglySorted_inv in Hs as [Hs Ha].
  destruct Hin as [->|Hin].
  - exists [], kfs. split; [reflexivity | constructor].
  - destruct (IH Hs Hin) as (pre & post & -> & Hpre).
    exists (a :: pre), post. split; [reflexivity|].
    constructor; [|exact Hpre].
    rewrite List.Forall_forall in Ha. apply Ha, in_or_app. right. now left.
Qed.

(** X5.  In a track whose times strictly increase, the value at the time
    of a keyframe is the value of that keyframe. *)
Theorem getValueAtTime_at_keyframe (track : AnimationTrack) (k : Keyframe) (h : heap) :
  strictly_time_ordered (keyframes track) -> In k (keyframes track) ->
  getValueAtTime track (kf_time k) h = Normal (kf_value k) h.
Proof.
  intros Hs Hin.
  destruct (strictly_ordered_split _ _ Hs Hin) as (pre & post & E & Hpre).
  now apply (getValueAtTime_hit track (kf_time k) h pre post k).
Qed.

Lemma scenario_strictly_ordered : strictly_time_ordered (keyframes scenario_track).
Proof.
  rewrite scenario_keyframes. unfold strictly_time_ordered.
  repeat constructor. cbv [kf_time]. lra.
Qed.

Lemma getValueAtTime_at_keyframe_witness :
  (strictly_time_ordered (keyframes scenario_track) /\
   In (mkKeyframe 100 (VNum 10) EaseIn) (keyframes scenario_track)) /\
  getValueAtTime scenario_track 100 [] = Normal (VNum 10) [].
Proof.
  assert (Hin : In (mkKeyframe 100 (VNum 10) EaseIn) (keyframes scenario_track))
    by (rewrite scenario_keyframes; right; now left).
  split; [split; [exact scenario_strictly_ordered | exact Hin]|].
  exact (getValueAtTime_at_keyframe scenario_track (mkKeyframe 100 (VNum 10) EaseIn) []
           scenario_strictly_ordered Hin).
Defined.



Lemma insertKeyframe_behind (kf k : Keyframe) (pre post : list Keyframe) :
  Forall (fun k' => kf_time k' <= kf_time kf) pre -> kf_time k <= kf_time kf ->
  insertKeyframe kf (pre ++ k :: post) = pre ++ k :: insertKeyframe kf post.
Proof.
  intros Hpre Hk. induction pre as [|a pre IH]; cbn [app insertKeyframe].
  - destruct (Rgt_dec (kf_time k) (kf_time kf)); [lra | reflexivity].
  - apply Forall_cons in Hpre as [Ha Hpre].
    destruct (Rgt_dec (kf_time a) (kf_time kf)); [lra|]. now rewrite IH.
Qed.

Lemma time_ordered_first_at (kfs : list Keyframe) (t : R) :
  time_ordered kfs -> Exists (fun k => kf_time k = t) kfs ->
  exists pre k post,
    kfs = pre ++ k :: post /\ kf_time k = t /\ Forall (fun k' => kf_time k' < t) pre.
Proof.
  unfold time_ordered. intros Hs Hex.
  induction kfs as [|a kfs IH]; [now apply Exists_nil in Hex|].
  apply StronglySorted_inv in Hs as [Hs Ha].
  destruct (Req_dec_T (kf_time a) t) as [Hat|Hat].
  - exists [], a, kfs. split; [reflexivity | split; [exact Hat | constructor]].
  - apply Exists_cons in Hex as [Hex|Hex]; [contradiction|].
    destruct (IH Hs Hex) as (pre & k & post & -> & Hk & Hpre).
    exists (a :: pre), k, post. split; [reflexivity|]. split; [exact Hk|].
    constructor; [|exact Hpre].
    rewrite List.Forall_forall in Ha.
    assert (kf_time a <= kf_time k) by (apply Ha, in_or_app; right; now left).
    lra.
Qed.

(** X7.  In a time-ordered track that holds a keyframe at [t] already,
    [addKeyframe(t, v)] does not change the value at [t]: the keyframe that
    was there first keeps deciding it. *)
Theorem getValueAtTime_addKeyframe_tie (track : AnimationTrack) (t : R) (v : value)
    (e : EasingFunction) (h : heap) :
  time_ordered (keyframes track) ->
  Exists (fun k => kf_time k = t) (keyframes track) ->
  getValueAtTime (addKeyframe track t v e) t h = getValueAtTime track t h.
Proof.
  intros Hord Hex.
  destruct (time_ordered_first_at _ t Hord Hex) as (pre & k & post & E & Hk & Hpre).
  rewrite (getValueAtTime_hit track t h pre post k E Hpre Hk).
  apply (getValueAtTime_hit _ t h pre (insertKeyframe (mkKeyframe t v e) post) k);
    [|exact Hpre | exact Hk].
  cbn [addKeyframe keyframes]. rewrite E. apply insertKeyframe_behind.
  - eapply List.Forall_impl; [|exact Hpre]. cbv beta. intros k' Hk'. cbv [kf_time].
    fold (kf_time k'). lra.
  - cbv [kf_time]. fold (kf_time k). lra.
Qed.

Lemma getValueAtTime_addKeyframe_tie_witness :
  (time_ordered (keyframes scenario_track) /\
   Exists (fun k => kf_time k = 100) (keyframes scenario_track)) /\
  getValueAtTime (addKeyframe scenario_track 100 (VNum 7) Linear) 100 [] =
  getValueAtTime scenario_track 100 [].
Proof.
  assert (Hex : Exists (fun k => kf_time k = 100) (keyframes scenario_track))
    by (rewrite scenario_keyframes; right; left; reflexivity).
  split; [split; [exact scenario_time_ordered | exact Hex]|].
  exact (getValueAtTime_addKeyframe_tie scenario_track 100 (VNum 7) Linear []
           scenario_time_ordered Hex).
Defined.
End TrackResolution.

(** ** Linear tracks and the range of the easing curves *)

Section CurveFacts.
Local Open Scope R_scope.

Ltac cases_on_time :=
  repeat match goal with
         | |- context [Rlt_dec ?a ?b] => destruct (Rlt_dec a b); try lra
         end.





(** X9.  Each of the five polynomial easing curves (linear, ease-in,
    ease-out, ease-in-out, bounce) maps the interval from 0 to 1 into
    itself. *)
Theorem polynomial_easing_range (e : EasingFunction) (t : R) :
  In e polynomial_easings -> 0 <= t <= 1 ->
  0 <= applyEasing t e <= 1.
Proof.
  intros Hin [H0 H1]. unfold polynomial_easings in Hin. cbn [In] in Hin.
  destruct Hin as [<-|[<-|[<-|[<-|[<-|[]]]]]]; unfold applyEasing.
  - lra.
  - nra.
  - nra.
  - cases_on_time; nra.
  - cases_on_time; nra.
Qed.

Lemma polynomial_easing_range_witness :
  (In Bounce polynomial_easings /\ 0 <= 0.5 <= 1) /\
  0 <= applyEasing 0.5 Bounce <= 1.
Proof.
  assert (Hin : In Bounce polynomial_easings) by (cbv [polynomial_easings In]; tauto).
  split; [split; [exact Hin | lra]|].
  apply (polynomial_easing_range Bounce 0.5 Hin). lra.
Defined.


End CurveFacts.

(** ** More on state machine evaluation *)

Section StateMachineMore.

Lemma scanTransitions_app (sm : StateMachine) (event : option Event)
    (pre ts : list StateTransition) :
  scanTransitions sm event (pre ++ ts) =
  match scanTransitions sm event pre with
  | Some None => scanTransitions sm event ts
  | r => r
  end.
Proof.
  induction pre as [|t pre IH]; [reflexivity|].
  cbn [app scanTransitions]. rewrite IH.
  destruct (negb (String.eqb (from t) (currentState sm))); [reflexivity|].
  destruct (negb _); [reflexivity|].
  destruct (0 <? length (conditions t))%nat; [|reflexivity].
  destruct (every _ _) as [[]|]; reflexivity.
Qed.

Lemma scanTransitions_source (sm : StateMachine) (event : option Event)
    (ts : list StateTransition) (id : string) :
  scanTransitions sm event ts = Some (Some id) ->
  exists t, In t ts /\ from t = currentState sm /\ to t = id.
Proof.
  induction ts as [|t ts IH]; cbn [scanTransitions]; [discriminate|].
  intros H.
  assert (Hrest : scanTransitions sm event ts = Some (Some id) ->
                  exists t', In t' (t :: ts) /\ from t' = currentState sm /\ to t' = id).
  { intros H'. destruct (IH H') as (t' & Hin & Hfrom & Hto).
    exists t'. split; [now right | now split]. }
  destruct (String.eqb_spec (from t) (currentState sm)) as [Hfrom|Hfrom];
    cbn [negb] in H; [|auto].
  assert (Hhere : Some (Some (to t)) = Some (Some id) ->
                  exists t', In t' (t :: ts) /\ from t' = currentState sm /\ to t' = id).
  { intros [= <-]. exists t. split; [now left | now split]. }
  destruct (negb _); [auto|].
  destruct (0 <? length (conditions t))%nat; [|auto].
  destruct (every _ _) as [[]|]; [auto | auto | discriminate].
Qed.

(** X11.  A call of [checkTransitions] changes nothing but [currentState];
    when it returns an id, that id is the new current state and the target
    of a declared transition that leaves the state that was current. *)
Theorem checkTransitions_effect (sm sm' : StateMachine) (event : option Event)
    (result : option string) :
  checkTransitions sm event = Some (sm', result) ->
  (states sm' = states sm /\ transitions sm' = transitions sm /\
   parameters sm' = parameters sm /\ entryState sm' = entryState sm) /\
  match result with
  | Some id =>
      currentState sm' = id /\
      exists t, In t (transitions sm) /\ from t = currentState sm /\ to t = id
  | None => currentState sm' = currentState sm
  end.
Proof.
  unfold checkTransitions.
  destruct (scanTransitions sm event (transitions sm)) as [[id|]|] eqn:Escan;
    [| |discriminate].
  - intros [= <- <-]. split; [now repeat split|]. split; [reflexivity|].
    now apply scanTransitions_source in Escan.
  - intros [= <- <-]. now repeat split.
Qed.

Lemma checkTransitions_effect_witness :
  checkTransitions click_machine (Some (mkEvent "click" None None)) =
    Some (set_currentState click_machine "pressed", Some "pressed") /\
  (states (set_currentState click_machine "pressed") = states click_machine /\
   transitions (set_currentState click_machine "pressed") = transitions click_machine /\
   parameters (set_currentState click_machine "pressed") = parameters click_machine /\
   entryState (set_currentState click_machine "pressed") = entryState click_machine) /\
  currentState (set_currentState click_machine "pressed") = "pressed" /\
  exists t, In t (transitions click_machine) /\
            from t = currentState click_machine /\ to t = "pressed".
Proof.
  split; [reflexivity|].
  exact (checkTransitions_effect click_machine _ (Some (mkEvent "click" None None))
           (Some "pressed") eq_refl).
Defined.

Lemma scanTransitions_no_source (sm : StateMachine) (event : option Event)
    (ts : list StateTransition) :
  Forall (fun t => from t <> currentState sm) ts ->
  scanTransitions sm event ts = Some None.
Proof.
  induction 1 as [|t ts Ht _ IH]; [reflexivity|].
  cbn [scanTransitions].
  destruct (String.eqb_spec (from t) (currentState sm)); [contradiction | exact IH].
Qed.

(** X12.  When no declared transition leaves the current state (as in a
    machine without transitions), [checkTransitions] returns [null] and
    leaves the machine as it is, for every event and whatever the
    conditions and parameters are. *)
Theorem checkTransitions_no_outgoing (sm : StateMachine) (event : option Event) :
  Forall (fun t => from t <> currentState sm) (transitions sm) ->
  checkTransitions sm event = Some (sm, None).
Proof.
  intros H. unfold checkTransitions. now rewrite scanTransitions_no_source.
Qed.

Lemma checkTransitions_no_outgoing_witness :
  Forall (fun t => from t <> currentState (set_currentState click_machine "pressed"))
    (transitions (set_currentState click_machine "pressed")) /\
  checkTransitions (set_currentState click_machine "pressed")
    (Some (mkEvent "click" None None)) =
  Some (set_currentState click_machine "pressed", None).
Proof.
  assert (H : Forall (fun t => from t <> currentState (set_currentState click_machine "pressed"))
                (transitions (set_currentState click_machine "pressed")))
    by (repeat constructor; discriminate).
  split; [exact H|].
  exact (checkTransitions_no_outgoing _ (Some (mkEvent "click" None None)) H).
Defined.

Lemma js_lt_undefined_l (v : primitive) : js_lt PUndefined v = Some false.
Proof. now destruct v as [| |[]| |]. Qed.

Lemma js_lt_undefined_r (v : primitive) : js_lt v PUndefined = Some false.
Proof. now destruct v as [| |[]| |]. Qed.

Lemma js_le_undefined_l (v : primitive) : js_le PUndefined v = Some false.
Proof. now destruct v as [| |[]| |]. Qed.

Lemma js_le_undefined_r (v : primitive) : js_le v PUndefined = Some false.
Proof. now destruct v as [| |[]| |]. Qed.

Lemma evalCondition_cannot_hold (params : list (string * primitive)) (c : Condition) :
  cannot_hold params c -> evalCondition params c = Some false.
Proof.
  unfold cannot_hold, known_operators, order_operators, evalCondition.
  intros [Hunknown|[Horder Hunset]].
  - cbn [In] in Hunknown.
    repeat match goal with
           | |- context [String.eqb ?a ?b] =>
               let E := fresh "E" in
               destruct (String.eqb_spec a b) as [E|E]; [elim Hunknown; rewrite E; tauto|]
           end.
    reflexivity.
  - rewrite Hunset. cbn [from_option]. unfold Datatypes.id.
    cbn [In] in Horder.
    destruct Horder as [<-|[<-|[<-|[<-|[]]]]]; cbn [String.eqb Ascii.eqb Bool.eqb andb];
      auto using js_lt_undefined_l, js_lt_undefined_r, js_le_undefined_l, js_le_undefined_r.
Qed.

(** X13.  A transition with a condition that cannot hold (an operator
    other than the six known ones, or an order comparison of a parameter
    that was never set) never fires: taking it out of the list does not
    change what the scan of the transitions returns. *)
Theorem scanTransitions_dead_transition (sm : StateMachine) (event : option Event)
    (pre post : list StateTransition) (t : StateTransition) (c : Condition) :
  In c (conditions t) -> cannot_hold (parameters sm) c ->
  Forall (fun c' => evalCondition (parameters sm) c' <> None) (conditions t) ->
  scanTransitions sm event (pre ++ t :: post) = scanTransitions sm event (pre ++ post).
Proof.
  intros Hin Hdead Hmod.
  rewrite !scanTransitions_app. destruct (scanTransitions sm event pre) as [[]|]; try reflexivity.
  apply scanTransitions_skip; [exact Hmod|].
  intros (_ & _ & [Hnil|Hall]).
  - rewrite Hnil in Hin. destruct Hin.
  - rewrite List.Forall_forall in Hall. specialize (Hall c Hin).
    rewrite (evalCondition_cannot_hold _ _ Hdead) in Hall. discriminate.
Qed.

Lemma speed_condition_cannot_hold :
  cannot_hold (parameters click_machine) speed_condition.
Proof. right. split; [now left | reflexivity]. Qed.

Lemma speed_transition_modelled :
  Forall (fun c' => evalCondition (parameters click_machine) c' <> None)
    (conditions speed_transition).
Proof.
  repeat constructor.
  rewrite (evalCondition_cannot_hold _ _ speed_condition_cannot_hold). discriminate.
Qed.

Lemma scanTransitions_dead_transition_witness :
  (In speed_condition (conditions speed_transition) /\
   cannot_hold (parameters click_machine) speed_condition /\
   Forall (fun c' => evalCondition (parameters click_machine) c' <> None)
     (conditions speed_transition)) /\
  scanTransitions click_machine None ([] ++ speed_transition :: transitions click_machine) =
  scanTransitions click_machine None ([] ++ transitions click_machine).
Proof.
  assert (Hin : In speed_condition (conditions speed_transition)) by now left.
  split; [split; [exact Hin | split;
            [exact speed_condition_cannot_hold | exact speed_transition_modelled]]|].
  exact (scanTransitions_dead_transition click_machine None [] (transitions click_machine)
           speed_transition speed_condition Hin
           speed_condition_cannot_hold speed_transition_modelled).
Defined.


End StateMachineMore.

(** ** The maps of states and tracks *)

Section MapFacts.
Local Open Scope R_scope.

Lemma assoc_get_None_keys {V} (k : string) (m : list (string * V)) :
  assoc_get k m = None -> ~ In k (map fst m).
Proof.
  induction m as [|[k' v'] m IH]; cbn; [tauto|].
  destruct (String.eqb_spec k' k) as [->|Hne]; [discriminate|].
  intros H [Heq|Hin]; [contradiction | now apply IH].
Qed.

Lemma assoc_set_keys {V} (k : string) (v : V) (m : list (string * V)) :
  map fst (assoc_set k v m) =
  if assoc_has k m then map fst m else map fst m ++ [k].
Proof.
  unfold assoc_has. induction m as [|[k' v'] m IH]; cbn; [reflexivity|].
  destruct (String.eqb_spec k' k) as [->|Hne]; cbn; [reflexivity|].
  rewrite IH. now destruct (assoc_get k m).
Qed.

Lemma assoc_set_NoDup {V} (k : string) (v : V) (m : list (string * V)) :
  NoDup (map fst m) -> NoDup (map fst (assoc_set k v m)).
Proof.
  intros Hnd. rewrite assoc_set_keys. unfold assoc_has.
  destruct (assoc_get k m) eqn:E; [exact Hnd|].
  apply NoDup_app. split; [exact Hnd|]. split; [|apply NoDup_singleton].
  intros x Hx Hk. apply list_elem_of_singleton in Hk as ->.
  apply list_elem_of_In in Hx. now apply assoc_get_None_keys in E.
Qed.

Lemma assoc_set_Forall {V} (P : string * V -> Prop) (k : string) (v : V)
    (m : list (string * V)) :
  P (k, v) -> Forall P m -> Forall P (assoc_set k v m).
Proof.
  intros Hkv. induction 1 as [|[k' v'] m Hx Hm IH]; cbn; [now repeat constructor|].
  destruct (String.eqb k' k); constructor; assumption.
Qed.

(** X15.  In every machine the mutators reach, the ids of the states map
    are pairwise different and every state is stored under its own id, so
    adding a state under an id that exists replaces that state and adds no
    second one. *)
Theorem states_keyed_by_id (sm : StateMachine) :
  reachable sm ->
  NoDup (map fst (states sm)) /\
  Forall (fun kv => state_id kv.2 = kv.1) (states sm).
Proof.
  induction 1 as [id name | sm id name anim _ [IH1 IH2] | sm f t' trs cs _ IH
                 | sm name v _ IH | sm event sm' result _ IH Hcheck].
  - split; constructor.
  - cbn [addState states]. split.
    + now apply assoc_set_NoDup.
    + now apply assoc_set_Forall.
  - exact IH.
  - exact IH.
  - unfold checkTransitions in Hcheck.
    destruct (scanTransitions sm event (transitions sm)) as [[id|]|]; [| |discriminate];
      injection Hcheck as <- <-; exact IH.
Qed.

Lemma states_keyed_by_id_witness :
  reachable (addState click_machine "pressed" "Pressed again" (Some "anim")) /\
  NoDup (map fst (states (addState click_machine "pressed" "Pressed again" (Some "anim")))) /\
  Forall (fun kv => state_id kv.2 = kv.1)
    (states (addState click_machine "pressed" "Pressed again" (Some "anim"))).
Proof.
  assert (Hr : reachable (addState click_machine "pressed" "Pressed again" (Some "anim")))
    by (constructor; exact click_machine_reachable).
  split; [exact Hr|]. exact (states_keyed_by_id _ Hr).
Defined.

(** X16.  After [addTrack(property)] the track stored under [property] is
    empty, so a track that was there before is dropped with its
    keyframes, and the tracks of the other properties are as before. *)
Theorem addTrack_getTrack (a : Animation) (property : string) :
  getTrack (addTrack a property) property = Some (mkTrack property []) /\
  forall other, other <> property ->
    getTrack (addTrack a property) other = getTrack a other.
Proof.
  unfold getTrack, addTrack. cbn [tracks]. split.
  - apply assoc_get_set_eq.
  - intros other Hne. apply assoc_get_set_ne. congruence.
Qed.

Lemma for_each_skip {A} (xs : list A) (body : A -> M unit) (h : heap) :
  Forall (fun x => body x h = Normal tt h) xs ->
  for_each xs body h = Normal tt h.
Proof.
  induction 1 as [|x xs Hx _ IH]; [reflexivity|].
  cbn [for_each]. unfold bind. now rewrite Hx.
Qed.

(** X17.  [applyToShape] with an animation whose tracks hold no keyframe
    (or with no track at all) writes nothing and does not throw, whatever
    the property paths are. *)
Theorem applyToShape_empty_tracks (a : Animation) (shape : value) (t : R) (h : heap) :
  Forall (fun kv => keyframes kv.2 = []) (tracks a) ->
  applyToShape a shape t h = Normal tt h.
Proof.
  intros H. unfold applyToShape. apply for_each_skip.
  eapply List.Forall_impl; [|exact H]. intros [property track] E. cbn in E.
  unfold bind. now rewrite (getValueAtTime_empty track t h E).
Qed.

Lemma applyToShape_empty_tracks_witness :
  Forall (fun kv => keyframes kv.2 = [])
    (tracks (addTrack (newAnimation "a" "A" 1000) "opacity.a.b")) /\
  applyToShape (addTrack (newAnimation "a" "A" 1000) "opacity.a.b") (VRef 0) 0 three_shapes =
  Normal tt three_shapes.
Proof.
  assert (H : Forall (fun kv => keyframes kv.2 = [])
                (tracks (addTrack (newAnimation "a" "A" 1000) "opacity.a.b")))
    by (repeat constructor).
  split; [exact H|].
  exact (applyToShape_empty_tracks _ (VRef 0) 0 three_shapes H).
Defined.
End MapFacts.

(** ** Writing along a property path *)

Section PathFacts.
Local Open Scope R_scope.
















End PathFacts.

(** ** Moving shapes between groups *)

Section GroupMoves.

Lemma removeChild_effect (h : heap) (g a s : loc) (es1 es2 : list (option value)) :
  has_children h g a (es1 ++ Some (VRef s) :: es2) -> Some (VRef s) ∉ es1 ->
  s <> a -> (s < length h)%nat ->
  exists h',
    removeChild (VRef g) (VRef s) h = Normal tt h' /\
    length h' = length h /\
    has_children h' g a (es1 ++ es2) /\
    parent_of h' s = VNull /\
    (forall g2 a2 es', a2 <> a -> a2 <> s ->
       has_children h g2 a2 es' -> has_children h' g2 a2 es').
Proof.
  intros Hg Hnot Hsa Hs.
  destruct (removeChild_member h g a s es1 es2 Hg Hnot Hsa Hs) as (h' & Hrun & Hkids & Hpar).
  destruct Hg as (cg & pa & Hg & Hk & Ha).
  destruct (lookup_lt_is_Some_2 h s Hs) as [cs Hcs].
  destruct (set_parent_cell cs VNull) as (cs' & Hset & Hpar' & Hch).
  assert (Hh' : h' = <[a := Cell ArrayObject pa (es1 ++ es2)]> (<[s := cs']> h)).
  { assert (Hrun' : removeChild (VRef g) (VRef s) h =
                    Normal tt (<[a := Cell ArrayObject pa (es1 ++ es2)]> (<[s := cs']> h))).
    { assert (Ha1 : <[s := cs']> h !! a =
                    Some (Cell ArrayObject pa (es1 ++ Some (VRef s) :: es2)))
        by (rewrite list_lookup_insert_ne by assumption; exact Ha).
      assert (Hg1 : exists cg1, <[s := cs']> h !! g = Some cg1 /\
                                cell_get cg1 "children" = VRef a).
      { destruct (decide (s = g)) as [->|Hne].
        - exists cs'. rewrite list_lookup_insert_eq by assumption.
          split; [reflexivity|]. rewrite Hch. congruence.
        - exists cg. rewrite list_lookup_insert_ne by assumption. now split. }
      destruct Hg1 as (cg1 & Hg1 & Hk1).
      unfold removeChild. unfold bind at 1. unfold get_prop at 1. rewrite Hg, Hk.
      unfold bind at 1. unfold array_indexOf, with_array at 1.
      unfold bind at 1. unfold read_heap at 1. rewrite Ha.
      cbn [c_class c_elems]. unfold ret at 1.
      rewrite index_from_first by assumption. rewrite Z.add_0_l.
      destruct (Z.gtb_spec (Z.of_nat (length es1)) (-1)); [|lia].
      unfold bind at 1. unfold array_get, with_array at 1.
      unfold bind at 1. unfold read_heap at 1. rewrite Ha.
      cbn [c_class c_elems]. unfold ret at 1.
      destruct (Z.ltb_spec (Z.of_nat (length es1)) 0); [lia|].
      rewrite Nat2Z.id, list_lookup_middle by reflexivity.
      unfold bind at 1. unfold set_prop at 1. rewrite Hcs, Hset.
      unfold bind at 1. unfold get_prop at 1. rewrite Hg1, Hk1.
      unfold array_splice1, with_array, bind, read_heap. rewrite Ha1.
      cbn [c_class c_elems c_props]. unfold write_cell.
      rewrite Nat2Z.id. do 3 f_equal.
      clear. induction es1 as [|e es1 IH]; cbn; [reflexivity | f_equal; exact IH]. }
    rewrite Hrun in Hrun'. now injection Hrun'. }
  exists h'. split; [exact Hrun|]. split; [|split; [exact Hkids|split; [exact Hpar|]]].
  - subst h'. now rewrite !length_insert.
  - intros g2 a2 es' Ha2a Ha2s (c2 & pa2 & Hg2 & Hk2 & Harr2).
    assert (Hslen : (s < length h)%nat) by exact Hs.
    assert (Halen : (a < length (<[s := cs']> h))%nat)
      by (rewrite length_insert; eapply lookup_lt_Some; eauto).
    assert (Harr2' : h' !! a2 = Some (Cell ArrayObject pa2 es')).
    { subst h'. rewrite !list_lookup_insert_ne by congruence. exact Harr2. }
    destruct (decide (g2 = a)) as [->|Hg2a].
    + exists (Cell ArrayObject pa (es1 ++ es2)), pa2.
      subst h'. rewrite list_lookup_insert_eq by assumption.
      split; [reflexivity|]. split; [|exact Harr2'].
      rewrite Ha in Hg2. injection Hg2 as <-. exact Hk2.
    + destruct (decide (g2 = s)) as [->|Hg2s].
      * exists cs', pa2. subst h'.
        rewrite list_lookup_insert_ne by congruence.
        rewrite list_lookup_insert_eq by assumption.
        split; [reflexivity|]. split; [|exact Harr2'].
        rewrite Hch. congruence.
      * exists c2, pa2. subst h'.
        rewrite !list_lookup_insert_ne by congruence. now split.
Qed.

(** X21.  Adding a shape to a group that does not hold it and removing it
    again gives the children list back; the parent of the shape is then
    [null], whatever it was before the two calls. *)
Theorem removeChild_addChild (h : heap) (g a s : loc) (es : list (option value)) :
  has_children h g a es -> Some (VRef s) ∉ es -> s <> a -> (s < length h)%nat ->
  exists h',
    (addChild (VRef g) (VRef s) ;; removeChild (VRef g) (VRef s)) h = Normal tt h' /\
    has_children h' g a es /\
    parent_of h' s = VNull.
Proof.
  intros Hg Hnot Hsa Hs.
  destruct (addChild_effect h g a s es Hg Hsa Hs) as (h1 & Hrun1 & Hlen1 & Hkids1 & _ & _).
  destruct (removeChild_effect h1 g a s es [] Hkids1 Hnot Hsa ltac:(lia))
    as (h2 & Hrun2 & _ & Hkids2 & Hpar2 & _).
  exists h2. split; [unfold bind; now rewrite Hrun1|].
  rewrite app_nil_r in Hkids2. now split.
Qed.

Lemma removeChild_addChild_witness :
  (has_children three_shapes 0 7 [] /\ (Some (VRef 16) ∉ @nil (option value)) /\
   16%nat <> 7%nat /\ (16 < length three_shapes)%nat) /\
  exists h',
    (addChild (VRef 0) (VRef 16) ;; removeChild (VRef 0) (VRef 16)) three_shapes =
      Normal tt h' /\
    has_children h' 0 7 [] /\
    parent_of h' 16 = VNull.
Proof.
  destruct three_shapes_groups as (Hg & _ & Hs).
  assert (Hnot : Some (VRef 16) ∉ @nil (option value)) by apply not_elem_of_nil.
  split; [split; [exact Hg | split; [exact Hnot | split; [discriminate | exact Hs]]]|].
  exact (removeChild_addChild three_shapes 0 7 16 [] Hg Hnot ltac:(discriminate) Hs).
Defined.



End GroupMoves.

(** * What the engine leaves alone *)

Lemma bind_assoc {A B C} (c : M A) (k1 : A -> M B) (k2 : B -> M C) (h : heap) :
  bind (bind c k1) k2 h = bind c (fun a => bind (k1 a) k2) h.
Proof. unfold bind. now destruct (c h). Qed.

(** The rules of [holds]. *)
Lemma holds_ret (I : heap -> Prop) {A} (a : A) (h : heap) (Q : A -> heap -> Prop) :
  Q a h -> holds I (ret a) h Q.
Proof. intros HQ HI. now split. Qed.

Lemma holds_throw (I : heap -> Prop) {A} (e : error) (h : heap) (Q : A -> heap -> Prop) :
  holds I (throw e) h Q.
Proof. now intros HI. Qed.

Lemma holds_bind (I : heap -> Prop) {A B} (c : M A) (k : A -> M B) (h : heap)
    (Q1 : A -> heap -> Prop) (Q2 : B -> heap -> Prop) :
  holds I c h Q1 -> (forall a h1, Q1 a h1 -> holds I (k a) h1 Q2) ->
  holds I (bind c k) h Q2.
Proof.
  intros Hc Hk HI. specialize (Hc HI). unfold bind.
  destruct (c h) as [a h1|e h1]; [|exact Hc].
  destruct Hc as [HI1 HQ1]. exact (Hk a h1 HQ1 HI1).
Qed.

Lemma holds_assume (I : heap -> Prop) {A} (c : M A) (h : heap) (Q : A -> heap -> Prop) :
  (I h -> holds I c h Q) -> holds I c h Q.
Proof. intros H HI. exact (H HI HI). Qed.

Lemma holds_conseq (I : heap -> Prop) {A} (c : M A) (h : heap) (Q Q' : A -> heap -> Prop) :
  holds I c h Q -> (forall a h', Q a h' -> Q' a h') -> holds I c h Q'.
Proof.
  intros Hc HQ HI. specialize (Hc HI). destruct (c h); [|exact Hc].
  destruct Hc. split; auto.
Qed.

Lemma holds_reads (I : heap -> Prop) {A} (c : M A) (h : heap) :
  reads c -> holds I c h (fun a h' => h' = h /\ c h = Normal a h).
Proof.
  intros Hr HI. specialize (Hr h). destruct (c h); cbn in Hr; subst; auto.
Qed.

Lemma holds_for_each (I : heap -> Prop) {A} (xs : list A) (body : A -> M unit) (h : heap) :
  (forall x h1, holds I (body x) h1 (fun _ _ => True)) ->
  holds I (for_each xs body) h (fun _ _ => True).
Proof.
  intros Hbody. revert h. induction xs as [|x xs IH]; intros h; cbn [for_each].
  - now apply holds_ret.
  - eapply holds_bind; [apply Hbody|]. intros _ h1 _. apply IH.
Qed.

Lemma holds_fold_each (I : heap -> Prop) {A S} (xs : list A) (s : S) (body : S -> A -> M S)
    (h : heap) :
  (forall s1 x h1, holds I (body s1 x) h1 (fun _ _ => True)) ->
  holds I (fold_each xs s body) h (fun _ _ => True).
Proof.
  intros Hbody. revert s h. induction xs as [|x xs IH]; intros s h; cbn [fold_each].
  - now apply holds_ret.
  - eapply holds_bind; [apply Hbody|]. intros s1 h1 _. apply IH.
Qed.

(** The computations that only read. *)
Lemma reads_ret {A} (a : A) : reads (ret a).
Proof. now intros h. Qed.

Lemma reads_throw {A} (e : error) : reads (@throw A e).
Proof. now intros h. Qed.

Lemma reads_bind {A B} (c : M A) (k : A -> M B) :
  reads c -> (forall a, reads (k a)) -> reads (bind c k).
Proof.
  intros Hc Hk h. specialize (Hc h). unfold bind.
  destruct (c h) as [a h1|e h1]; cbn in Hc; subst h1; [apply Hk | reflexivity].
Qed.

Lemma reads_get_prop (v : value) (k : string) : reads (get_prop v k).
Proof.
  intros h. unfold get_prop. destruct v as [| | | |s|l]; try reflexivity.
  - destruct (array_index k); [reflexivity|]. now destruct (String.eqb k "length").
  - now destruct (h !! l).
Qed.

Lemma reads_get_path (path : list string) (v : value) : reads (get_path v path).
Proof.
  revert v. induction path as [|k path IH]; intros v; cbn [get_path].
  - apply reads_ret.
  - apply reads_bind; [apply reads_get_prop | exact IH].
Qed.

Lemma reads_class_of (v : value) : reads (class_of v).
Proof.
  intros h. unfold class_of. destruct v as [| | | | |l]; try reflexivity. now destruct (h !! l).
Qed.

Lemma reads_js_add (a b : value) : reads (js_add a b).
Proof. intros h. unfold js_add. destruct a, b; reflexivity. Qed.

Lemma reads_js_arith (f : R -> R -> R) (a b : value) : reads (js_arith f a b).
Proof. intros h. unfold js_arith. destruct a, b; reflexivity. Qed.

Lemma reads_Math_min (acc : option R) (v : value) : reads (Math_min acc v).
Proof. intros h. unfold Math_min. destruct v; reflexivity. Qed.

Lemma reads_Math_max (acc : option R) (v : value) : reads (Math_max acc v).
Proof. intros h. unfold Math_max. destruct v; reflexivity. Qed.

Lemma reads_with_array {A} (arr : value) (f : loc -> cell -> M A) :
  (forall l c, reads (f l c)) -> reads (with_array arr f).
Proof.
  intros Hf h. unfold with_array. destruct arr as [| | | | |l]; try reflexivity.
  unfold bind, read_heap. destruct (h !! l) as [c|]; [|reflexivity].
  destruct (c_class c); try reflexivity. apply Hf.
Qed.

Lemma reads_array_elements (arr : value) : reads (array_elements arr).
Proof. apply reads_with_array. intros l c. apply reads_ret. Qed.

Lemma reads_for_in_keys (v : value) : reads (for_in_keys v).
Proof.
  intros h. unfold for_in_keys. destruct v as [| | | | |l]; try reflexivity. now destruct (h !! l).
Qed.

Lemma reads_keyframe_at (kfs : list Keyframe) (i : Z) : reads (keyframe_at kfs i).
Proof.
  intros h. unfold keyframe_at. destruct (i <? 0)%Z; [reflexivity|].
  now destruct (kfs !! Z.to_nat i).
Qed.

Create HintDb reads.

#[local] Hint Resolve reads_ret reads_throw reads_get_prop reads_get_path reads_class_of
  reads_js_add reads_js_arith reads_Math_min reads_Math_max reads_array_elements
  reads_for_in_keys reads_keyframe_at : reads.

Ltac solve_reads :=
  solve [repeat first [ apply reads_bind; [|intros ?] | solve [auto with reads] ]].

Lemma reads_grow (acc : extent) (bounds : value) : reads (grow acc bounds).
Proof. unfold grow. solve_reads. Qed.

(** The steps that keep [evolves]. *)
Lemma evolves_refl (n : nat) (lc : loc) (keys : list string) (hb : heap) :
  (n <= length hb)%nat -> evolves n lc keys hb hb.
Proof.
  intros Hn. split; [exact Hn|]. split; [lia|]. split; [reflexivity|].
  intros c Hc. exists c. auto.
Qed.

Lemma evolves_app (n : nat) (lc : loc) (keys : list string) (hb h ext : heap) :
  evolves n lc keys hb h -> evolves n lc keys hb (h ++ ext).
Proof.
  intros (Hn & Hlen & Hlow & Hlc). split; [exact Hn|]. split; [rewrite length_app; lia|].
  split.
  - intros l Hl. rewrite lookup_app_l by lia. now apply Hlow.
  - intros c Hc. destruct (Hlc c Hc) as (c' & Hc' & Hkeep).
    exists c'. split; [|exact Hkeep]. now apply lookup_app_l_Some.
Qed.

Lemma evolves_insert (n : nat) (lc : loc) (keys : list string) (hb h : heap)
    (l : loc) (c c' : cell) :
  evolves n lc keys hb h -> (n <= l)%nat -> h !! l = Some c ->
  c_class c' = c_class c ->
  (l = lc -> forall k, In k keys -> array_index k = None -> k <> "length" ->
             cell_get c' k = cell_get c k) ->
  evolves n lc keys hb (<[l := c']> h).
Proof.
  intros (Hn & Hlen & Hlow & Hlc) Hl Hc Hclass Hkeep.
  split; [exact Hn|]. split; [rewrite length_insert; lia|]. split.
  - intros l0 Hl0. rewrite list_lookup_insert_ne by lia. now apply Hlow.
  - intros c0 Hc0. destruct (Hlc c0 Hc0) as (c1 & Hc1 & Hclass1 & Hkeys1).
    destruct (decide (l = lc)) as [->|Hne].
    + exists c'. rewrite list_lookup_insert_eq by (eapply lookup_lt_Some; eauto).
      split; [reflexivity|]. rewrite Hc in Hc1. injection Hc1 as ->.
      split; [congruence|]. intros k Hk Hidx Hlength.
      rewrite (Hkeep eq_refl k Hk Hidx Hlength). now apply Hkeys1.
    + exists c1. rewrite list_lookup_insert_ne by exact Hne. auto.
Qed.

Lemma cell_set_keeps (c c' : cell) (k k' : string) (x : value) :
  cell_set c k x = Some c' ->
  c_class c' = c_class c /\
  (k' <> k -> array_index k' = None -> k' <> "length" -> cell_get c' k' = cell_get c k').
Proof.
  intros Hset.
  assert (Hc' : c_class c' = c_class c /\
                (c_props c' = c_props c \/ c_props c' = assoc_set k x (c_props c))).
  { unfold cell_set in Hset. destruct (c_class c) eqn:Hcl;
      try (injection Hset as <-; cbn; auto).
    destruct (array_index k); [injection Hset as <-; cbn; auto|].
    destruct (String.eqb k "length"); [discriminate|]. injection Hset as <-. cbn. auto. }
  destruct Hc' as [Hclass Hprops]. split; [exact Hclass|].
  intros Hne Hidx Hlength. rewrite !cell_get_named by assumption.
  destruct Hprops as [->| ->]; [reflexivity|]. now rewrite assoc_get_set_ne by congruence.
Qed.

Section Evolving.
Variables (n : nat) (lc : loc) (keys : list string) (hb : heap).

Lemma holds_alloc (c : cell) (h : heap) :
  holds (evolves n lc keys hb) (alloc c) h (fun a h' => a = VRef (length h) /\ h' = h ++ [c]).
Proof. intros HI. unfold alloc. split; [now apply evolves_app | now split]. Qed.

Lemma holds_object_spread (v : value) (h : heap) :
  holds (evolves n lc keys hb) (object_spread v) h (fun a _ => a = VRef (length h)).
Proof.
  intros HI. unfold object_spread. destruct v as [| | | | |l]; cbn;
    try (split; [now apply evolves_app | reflexivity]); try exact HI.
  unfold bind, read_heap. destruct (h !! l); cbn; [|exact HI].
  split; [now apply evolves_app | reflexivity].
Qed.

Lemma holds_set_prop (v : value) (k : string) (x : value) (h : heap) :
  (forall l, v = VRef l -> (n <= l)%nat /\ (l <> lc \/ ~ In k keys)) ->
  holds (evolves n lc keys hb) (set_prop v k x) h (fun _ _ => True).
Proof.
  intros Hv HI. unfold set_prop. destruct v as [| | | | |l]; try exact HI.
  destruct (Hv l eq_refl) as [Hl Hfree].
  destruct (h !! l) as [c|] eqn:Hc; [|exact HI].
  destruct (cell_set c k x) as [c'|] eqn:Hset; [|exact HI].
  split; [|exact Logic.I].
  destruct (cell_set_keeps c c' k k x Hset) as [Hclass _].
  apply (evolves_insert n lc keys hb h l c c' HI Hl Hc Hclass).
  intros -> k' Hk' Hidx Hlength. destruct Hfree as [Hne|Hout]; [contradiction|].
  apply (cell_set_keeps c c' k k' x Hset); [|assumption..]. intros ->. contradiction.
Qed.

Lemma holds_array_push (arr x : value) (h : heap) :
  (forall l, arr = VRef l -> (n <= l)%nat) ->
  holds (evolves n lc keys hb) (array_push arr x) h (fun _ _ => True).
Proof.
  intros Harr HI. unfold array_push, with_array. destruct arr as [| | | | |l]; try exact HI.
  unfold bind, read_heap. destruct (h !! l) as [c|] eqn:Hc; [|exact HI].
  destruct (c_class c) eqn:Hclass; try exact HI.
  unfold write_cell. split; [|exact Logic.I].
  apply (evolves_insert n lc keys hb h l c _ HI (Harr l eq_refl) Hc); [cbn; congruence|].
  intros _ k _ Hidx Hlength. now rewrite !cell_get_named by assumption.
Qed.

End Evolving.

Lemma evolves_extends (n : nat) (lc : loc) (keys : list string) (h ext h' : heap) :
  n = length h -> evolves n lc keys (h ++ ext) h' -> exists new, h' = h ++ new.
Proof.
  intros -> (_ & Hlen & Hlow & _). rewrite length_app in Hlen.
  exists (drop (length h) h').
  rewrite <- (take_drop (length h) h') at 1. f_equal.
  apply list_eq. intros i. destruct (decide (i < length h)%nat) as [Hi|Hi].
  - rewrite lookup_take_lt by exact Hi. rewrite Hlow by exact Hi. now apply lookup_app_l.
  - rewrite lookup_take_ge by lia. symmetry. apply lookup_ge_None. lia.
Qed.

Ltac step_reads :=
  eapply holds_bind; [apply holds_reads; solve_reads | intros ? ? [-> _]].

Lemma holds_last_alloc (I : heap -> Prop) (c : cell) (h : heap) :
  (forall ext, I h -> I (h ++ ext)) ->
  holds I (alloc c) h (fun b h' => exists h2 c2, I h2 /\ h' = h2 ++ [c2] /\ b = VRef (length h2)).
Proof. intros Happ HI. unfold alloc. split; [now apply Happ|]. now exists h, c. Qed.

Lemma getBounds_holds (n : nat) (lc : loc) (hb : heap) (fuel : nat) (this : value) (h : heap) :
  holds (evolves n lc [] hb) (getBounds fuel this) h
    (fun b h' => exists h2 c2, evolves n lc [] hb h2 /\ h' = h2 ++ [c2] /\ b = VRef (length h2)).
Proof.
  revert this h. induction fuel as [|fuel IH]; intros this h; cbn [getBounds].
  - apply holds_throw.
  - step_reads. destruct a as [[]|]; try apply holds_throw.
    + unfold Rectangle_getBounds. repeat step_reads.
      apply holds_last_alloc. intros ext. apply evolves_app.
    + unfold Ellipse_getBounds. repeat step_reads.
      apply holds_last_alloc. intros ext. apply evolves_app.
    + unfold Path_getBounds. repeat step_reads.
      apply holds_last_alloc. intros ext. apply evolves_app.
    + do 2 step_reads. destruct (strict_eq a0 (VNum 0)).
      * apply holds_last_alloc. intros ext. apply evolves_app.
      * do 2 step_reads.
        eapply holds_bind.
        { apply holds_fold_each. intros acc child h1.
          eapply holds_bind; [apply IH|]. intros b h2 _.
          eapply holds_conseq; [apply holds_reads, reads_grow|]. auto. }
        intros ext h1 _.
        destruct (minX ext), (minY ext), (maxX ext), (maxY ext); try apply holds_throw.
        apply holds_last_alloc. intros ext'. apply evolves_app.
Qed.

(** X23.  [getBounds] writes to no existing object, whether it returns or
    throws: the heap after the call is the heap before it followed by new
    objects, and the box returned is the last of them. *)
Theorem getBounds_appends (fuel : nat) (this : value) (h : heap) :
  match getBounds fuel this h with
  | Normal b h' => exists new c, h' = h ++ new ++ [c] /\ b = VRef (length h + length new)
  | Abrupt _ h' => exists new, h' = h ++ new
  end.
Proof.
  assert (H0 : evolves (length h) 0 [] (h ++ []) h)
    by (rewrite app_nil_r; apply evolves_refl; lia).
  pose proof (getBounds_holds (length h) 0 (h ++ []) fuel this h H0) as H.
  destruct (getBounds fuel this h) as [b h'|e h'].
  - destruct H as (_ & h2 & c2 & H2 & -> & ->).
    destruct (evolves_extends _ _ _ _ _ _ eq_refl H2) as [new ->].
    exists new, c2. now rewrite length_app, <- app_assoc.
  - exact (evolves_extends _ _ _ _ _ _ eq_refl H).
Qed.

Section Boxes.
Local Open Scope R_scope.






Ltac run :=
  cbv -[Rle_dec Rge_dec Rlt_dec Rgt_dec Req_dec_T IZR Rdiv Rminus Rplus Rmult Rinv Ropp
        Rmin Rmax].




End Boxes.

(** * Constructors and clones *)

Lemma bind_alloc_ext {B} (c : cell) (k : value -> M B) (h ext : heap) :
  bind (alloc c) k (h ++ ext) = k (VRef (length h + length ext)) (h ++ (ext ++ [c])).
Proof. unfold bind, alloc. now rewrite length_app, <- app_assoc. Qed.

Lemma set_prop_ext (h ext ext' : heap) (i : nat) (k : string) (x : value) :
  ext !! i ≫= (fun c => cell_set c k x ≫= (fun c' => Some (<[i := c']> ext))) = Some ext' ->
  set_prop (VRef (length h + i)) k x (h ++ ext) = Normal tt (h ++ ext').
Proof.
  intros H. unfold set_prop.
  rewrite lookup_app_r by lia. replace (length h + i - length h)%nat with i by lia.
  destruct (ext !! i) as [c|]; [|discriminate]. cbn in H.
  destruct (cell_set c k x) as [c'|]; [|discriminate]. cbn in H.
  injection H as <-. f_equal. rewrite insert_app_r_alt by lia. f_equal. f_equal. lia.
Qed.

Lemma bind_set_prop_ext {B} (h ext ext' : heap) (i : nat) (k : string) (x : value)
    (K : unit -> M B) :
  ext !! i ≫= (fun c => cell_set c k x ≫= (fun c' => Some (<[i := c']> ext))) = Some ext' ->
  bind (set_prop (VRef (length h + i)) k x) K (h ++ ext) = K tt (h ++ ext').
Proof. intros H. unfold bind. now rewrite (set_prop_ext h ext ext' i k x H). Qed.

Lemma run_on_app {A} (c : M A) (h : heap) (r : outcome A) : c (h ++ []) = r -> c h = r.
Proof. now rewrite app_nil_r. Qed.

(** One step of a constructor, run on a heap [h ++ ext] whose new part
    [ext] is known. *)
Ltac ext_step :=
  first
    [ rewrite bind_assoc
    | rewrite bind_alloc_ext; cbn [length app]
    | erewrite bind_set_prop_ext by (cbv -[IZR length Nat.add]; reflexivity)
    | erewrite set_prop_ext by (cbv -[IZR length Nat.add]; reflexivity) ].

Ltac construct :=
  intros; apply run_on_app;
  unfold new_Rectangle, new_Ellipse, new_Path, new_Group, Shape_constructor,
    new_array, new_object;
  repeat ext_step; unfold ret; rewrite ?Nat.add_0_r; reflexivity.

Lemma new_Rectangle_cells (id name : string) (width height : value) (h : heap) :
  new_Rectangle id name width height h =
  Normal (VRef (length h))
    (h ++ shape_cells (length h) RectangleClass id name
            [("width", width); ("height", height); ("cornerRadius", VNum 0)]).
Proof. construct. Qed.

Lemma new_Ellipse_cells (id name : string) (radiusX radiusY : value) (h : heap) :
  new_Ellipse id name radiusX radiusY h =
  Normal (VRef (length h))
    (h ++ shape_cells (length h) EllipseClass id name
            [("radiusX", radiusX); ("radiusY", radiusY)]).
Proof. construct. Qed.

Lemma new_Path_cells (id name : string) (pathData : value) (h : heap) :
  new_Path id name pathData h =
  Normal (VRef (length h))
    (h ++ shape_cells (length h) PathClass id name [("pathData", pathData)]).
Proof. construct. Qed.

Lemma new_Group_cells (id name : string) (h : heap) :
  new_Group id name h =
  Normal (VRef (length h))
    (h ++ shape_cells (length h) GroupClass id name [("children", VRef (length h + 7))]
       ++ [Cell ArrayObject [] []]).
Proof. construct. Qed.


Section NewShapeBounds.
Local Open Scope R_scope.








End NewShapeBounds.

(** Reading on the way to a clone. *)
Lemma clone_outcome_reads {A} (c : M A) (k : A -> M value) (h : heap) :
  reads c -> (forall a, clone_outcome h (k a h)) -> clone_outcome h (bind c k h).
Proof.
  intros Hr Hk. specialize (Hr h). unfold bind.
  destruct (c h) as [a h1|e h1]; cbn in Hr; subst h1; [apply Hk|].
  exists []. now rewrite app_nil_r.
Qed.

Lemma clone_outcome_throw (e : error) (h : heap) : clone_outcome h (throw e h).
Proof. exists []. now rewrite app_nil_r. Qed.

(** The rest of a clone, from the new shape on. *)
Lemma clone_outcome_rest (h cells : heap) (c0 : cell) (K : M value) :
  cells !! 0%nat = Some c0 ->
  cell_get c0 "parent" = VNull -> cell_get c0 "visible" = VBool true ->
  cell_get c0 "locked" = VBool false ->
  holds (evolves (length h) (length h) uncopied (h ++ cells)) K (h ++ cells)
    (fun a _ => a = VRef (length h)) ->
  clone_outcome h (K (h ++ cells)).
Proof.
  intros Hc0 Hparent Hvisible Hlocked HK.
  assert (Hb : evolves (length h) (length h) uncopied (h ++ cells) (h ++ cells))
    by (apply evolves_refl; rewrite length_app; lia).
  specialize (HK Hb). destruct (K (h ++ cells)) as [a h'|e h'].
  - destruct HK as [HI ->]. split; [reflexivity|].
    split; [exact (evolves_extends _ _ _ _ _ _ eq_refl HI)|].
    destruct HI as (_ & _ & _ & Hlc). destruct (Hlc c0) as (c & Hc & _ & Hkeys).
    { rewrite lookup_app_r by lia. now rewrite Nat.sub_diag. }
    exists c. split; [exact Hc|].
    rewrite !Hkeys by (reflexivity || discriminate || (cbn; tauto)). auto.
  - exact (evolves_extends _ _ _ _ _ _ eq_refl HK).
Qed.

Lemma holds_set_cloned (n lc : nat) (hb : heap) (k : string) (x : value) (h : heap) :
  (n <= lc)%nat -> ~ In k uncopied ->
  holds (evolves n lc uncopied hb) (set_prop (VRef lc) k x) h (fun _ _ => True).
Proof.
  intros Hlc Hk. apply holds_set_prop. intros l [= <-]. split; [exact Hlc | now right].
Qed.

Lemma holds_clone_stroke (n lc : nat) (hb : heap) (this : value) (h : heap) :
  (n <= lc)%nat ->
  holds (evolves n lc uncopied hb) (clone_stroke this (VRef lc)) h (fun _ _ => True).
Proof.
  intros Hlc. unfold clone_stroke.
  eapply holds_bind; [apply holds_reads; solve_reads | intros stroke ? [-> _]].
  eapply holds_bind.
  - instantiate (1 := fun _ _ => True). destruct (truthy stroke).
    + eapply holds_conseq; [apply holds_object_spread | auto].
    + now apply holds_ret.
  - intros copy h1 _. apply holds_set_cloned; [exact Hlc | cbn; intuition discriminate].
Qed.

Ltac clone_step :=
  first
    [ eapply holds_bind; [apply holds_reads; solve_reads | intros ? ? [-> _]]
    | eapply holds_bind; [apply holds_object_spread | intros ? ? _]
    | eapply holds_bind;
        [apply holds_set_cloned; [lia | cbn; intuition discriminate] | intros ? ? _]
    | eapply holds_bind; [apply holds_clone_stroke; lia | intros ? ? _]
    | apply holds_ret; reflexivity ].

Lemma Rectangle_clone_outcome (this : value) (h : heap) :
  clone_outcome h (Rectangle_clone this h).
Proof.
  unfold Rectangle_clone.
  repeat (apply clone_outcome_reads; [solve_reads | intros ?]).
  destruct a0; try apply clone_outcome_throw. destruct a2; try apply clone_outcome_throw.
  unfold bind at 1. rewrite new_Rectangle_cells.
  eapply clone_outcome_rest; [reflexivity..|]. repeat clone_step.
Qed.


Lemma Ellipse_clone_outcome (this : value) (h : heap) :
  clone_outcome h (Ellipse_clone this h).
Proof.
  unfold Ellipse_clone.
  repeat (apply clone_outcome_reads; [solve_reads | intros ?]).
  destruct a0; try apply clone_outcome_throw. destruct a2; try apply clone_outcome_throw.
  unfold bind at 1. rewrite new_Ellipse_cells.
  eapply clone_outcome_rest; [reflexivity..|]. repeat clone_step.
Qed.

Lemma Path_clone_outcome (this : value) (h : heap) :
  clone_outcome h (Path_clone this h).
Proof.
  unfold Path_clone.
  repeat (apply clone_outcome_reads; [solve_reads | intros ?]).
  destruct a0; try apply clone_outcome_throw. destruct a2; try apply clone_outcome_throw.
  unfold bind at 1. rewrite new_Path_cells.
  eapply clone_outcome_rest; [reflexivity..|]. repeat clone_step.
Qed.

(** A call that behaves like a clone keeps [evolves]. *)
Lemma holds_clone_outcome (n lc : nat) (hb : heap) (c : M value) (h : heap) :
  clone_outcome h (c h) ->
  holds (evolves n lc uncopied hb) c h (fun a _ => a = VRef (length h)).
Proof.
  intros Hc HI. destruct (c h) as [a h'|e h']; cbn in Hc.
  - destruct Hc as (-> & [new ->] & _). split; [now apply evolves_app | reflexivity].
  - destruct Hc as [new ->]. now apply evolves_app.
Qed.

(** [cloned.addChild(child)] for a child allocated after the clone. *)
Lemma holds_addChild_cloned (n lc la s : nat) (hb : heap) (c0 : cell) (h : heap) :
  hb !! lc = Some c0 -> cell_get c0 "children" = VRef la ->
  (n <= la)%nat -> (n <= s)%nat -> s <> lc ->
  holds (evolves n lc uncopied hb) (addChild (VRef lc) (VRef s)) h (fun _ _ => True).
Proof.
  intros Hc0 Hkids Hla Hs Hne. unfold addChild.
  eapply holds_bind.
  { apply holds_set_prop. intros l [= <-]. split; [exact Hs | now left]. }
  intros _ h1 _ HI.
  destruct HI as (H1 & H2 & H3 & Hkeep).
  destruct (Hkeep c0 Hc0) as (c' & Hc' & _ & Hkeys).
  unfold bind, get_prop. rewrite Hc'.
  rewrite Hkeys by (reflexivity || discriminate || (cbn; tauto)). rewrite Hkids.
  apply (holds_array_push n lc uncopied hb (VRef la) (VRef s) h1).
  - now intros l [= <-].
  - now repeat split.
Qed.

Lemma clone_spec (fuel : nat) (this : value) (h : heap) : clone_outcome h (clone fuel this h).
Proof.
  revert this h. induction fuel as [|fuel IH]; intros this h; cbn [clone].
  - apply clone_outcome_throw.
  - apply clone_outcome_reads; [solve_reads|]. intros [[]|]; try apply clone_outcome_throw.
    + apply Rectangle_clone_outcome.
    + apply Ellipse_clone_outcome.
    + apply Path_clone_outcome.
    + repeat (apply clone_outcome_reads; [solve_reads | intros ?]).
      destruct a0; try apply clone_outcome_throw.
      destruct a2; try apply clone_outcome_throw.
      unfold bind at 1. rewrite new_Group_cells.
      eapply clone_outcome_rest; [reflexivity..|]. do 7 clone_step.
      eapply holds_bind; [|intros; apply holds_ret; reflexivity].
      apply holds_for_each. intros child hc. apply holds_assume. intros (_ & Hlen & _).
      rewrite !length_app in Hlen. cbn [length shape_cells] in Hlen.
      eapply holds_bind; [apply holds_clone_outcome, IH|]. intros child' hc' ->.
      eapply (holds_addChild_cloned _ _ (length h + 7)); [| |lia|lia|lia].
      * rewrite lookup_app_r by lia. rewrite Nat.sub_diag. reflexivity.
      * reflexivity.
Qed.

(** X27.  [clone] writes to no existing object, whether it returns or
    throws, at any depth of nested groups: the heap after the call is the
    heap before it followed by new objects, and the clone is the first of
    the new objects. *)
Theorem clone_appends (fuel : nat) (this : value) (h : heap) :
  match clone fuel this h with
  | Normal v h' => v = VRef (length h) /\ (length h < length h')%nat /\
                   exists new, h' = h ++ new
  | Abrupt _ h' => exists new, h' = h ++ new
  end.
Proof.
  pose proof (clone_spec fuel this h) as H.
  destruct (clone fuel this h) as [v h'|e h']; [|exact H].
  destruct H as (Hv & Hnew & c & Hc & _). split; [exact Hv|]. split; [|exact Hnew].
  eapply lookup_lt_Some, Hc.
Qed.

(** X28.  A clone is detached, visible and unlocked whatever the original
    is: [clone] copies none of [parent], [visible] and [locked], so the
    clone of a hidden or locked child of a group is a visible, unlocked
    shape without parent. *)
Theorem clone_is_detached (fuel : nat) (this v : value) (h h' : heap) :
  clone fuel this h = Normal v h' ->
  get_prop v "parent" h' = Normal VNull h' /\
  get_prop v "visible" h' = Normal (VBool true) h' /\
  get_prop v "locked" h' = Normal (VBool false) h'.
Proof.
  intros Hrun. pose proof (clone_spec fuel this h) as H. rewrite Hrun in H.
  destruct H as (-> & _ & c & Hc & Hparent & Hvisible & Hlocked).
  unfold get_prop. rewrite Hc, Hparent, Hvisible, Hlocked. auto.
Qed.

Ltac run :=
  cbv -[Rle_dec Rge_dec Rlt_dec Rgt_dec Req_dec_T IZR Rdiv Rminus Rplus Rmult Rinv Ropp].

Lemma clone_is_detached_witness :
  (get_prop (VRef 16) "parent" hidden_child = Normal (VRef 0) hidden_child /\
   get_prop (VRef 16) "visible" hidden_child = Normal (VBool false) hidden_child /\
   get_prop (VRef 16) "locked" hidden_child = Normal (VBool true) hidden_child) /\
  clone 1 (VRef 16) hidden_child =
    Normal (VRef 23) (heap_of (clone 1 (VRef 16) hidden_child)) /\
  get_prop (VRef 23) "parent" (heap_of (clone 1 (VRef 16) hidden_child)) =
    Normal VNull (heap_of (clone 1 (VRef 16) hidden_child)) /\
  get_prop (VRef 23) "visible" (heap_of (clone 1 (VRef 16) hidden_child)) =
    Normal (VBool true) (heap_of (clone 1 (VRef 16) hidden_child)) /\
  get_prop (VRef 23) "locked" (heap_of (clone 1 (VRef 16) hidden_child)) =
    Normal (VBool false) (heap_of (clone 1 (VRef 16) hidden_child)).
Proof.
  assert (Hrun : clone 1 (VRef 16) hidden_child =
                 Normal (VRef 23) (heap_of (clone 1 (VRef 16) hidden_child)))
    by (run; reflexivity).
  split; [repeat split; run; reflexivity|]. split; [exact Hrun|].
  exact (clone_is_detached 1 (VRef 16) (VRef 23) hidden_child _ Hrun).
Defined.

(** [interpolate] writes to its result only. *)
Lemma holds_set_last (h : heap) (k : string) (x : value) (h1 : heap) :
  holds (fun h' => exists c, h' = h ++ [c]) (set_prop (VRef (length h)) k x) h1
    (fun _ _ => True).
Proof.
  intros [c ->]. unfold set_prop. rewrite lookup_app_r by lia. rewrite Nat.sub_diag. cbn.
  destruct (cell_set c k x) as [c'|]; [|now exists c].
  split; [|exact Logic.I]. exists c'.
  rewrite insert_app_r_alt by lia. now rewrite Nat.sub_diag.
Qed.

Lemma interpolate_appends (from to : value) (progress : R) (h : heap) :
  match interpolate from to progress h with
  | Normal v h' => h' = h \/ exists c, h' = h ++ [c] /\ v = VRef (length h)
  | Abrupt _ h' => at_most_one_new h h'
  end.
Proof.
  assert (Hobj : forall from to,
    match (let* result := new_object [] in
           let* keys := for_in_keys from in
           for_each keys (interpolate_key from to result progress) ;;
           ret result) h with
    | Normal v h' => h' = h \/ exists c, h' = h ++ [c] /\ v = VRef (length h)
    | Abrupt _ h' => at_most_one_new h h'
    end).
  { intros f t. unfold bind at 1. unfold new_object, alloc.
    assert (Hrest : holds (fun h' => exists c, h' = h ++ [c])
              (let* keys := for_in_keys f in
               for_each keys (interpolate_key f t (VRef (length h)) progress) ;;
               ret (VRef (length h)))
              (h ++ [Cell PlainObject [] []]) (fun v _ => v = VRef (length h))).
    { eapply holds_bind; [apply holds_reads; solve_reads | intros keys ? [-> _]].
      eapply holds_bind; [|intros; now apply holds_ret].
      apply holds_for_each. intros key h1. unfold interpolate_key.
      eapply holds_bind; [apply holds_reads; solve_reads | intros fk ? [-> _]].
      destruct fk; try now apply holds_ret.
      eapply holds_bind; [apply holds_reads; solve_reads | intros tk ? [-> _]].
      destruct tk; try now apply holds_ret. apply holds_set_last. }
    specialize (Hrest (ex_intro _ _ eq_refl)).
    destruct (bind (for_in_keys f) _ _) as [v h'|e h'].
    - destruct Hrest as [[c ->] ->]. right. now exists c.
    - destruct Hrest as [c ->]. right. now exists c. }
  unfold interpolate.
  destruct from, to; try (now left); try apply Hobj;
    cbn [typeof String.eqb Ascii.eqb Bool.eqb andb]; try (now left).
Qed.

(** X29.  [getValueAtTime] writes to no existing object, the values of the
    keyframes included: it leaves the heap as it is, or adds one new
    object, which is the blended record it returns. *)
Theorem getValueAtTime_appends (track : AnimationTrack) (time : R) (h : heap) :
  match getValueAtTime track time h with
  | Normal v h' => h' = h \/ exists c, h' = h ++ [c] /\ v = VRef (length h)
  | Abrupt _ h' => at_most_one_new h h'
  end.
Proof.
  assert (Hkf : forall i,
    match (let* kf := keyframe_at (keyframes track) i in ret (kf_value kf)) h with
    | Normal v h' => h' = h \/ exists c, h' = h ++ [c] /\ v = VRef (length h)
    | Abrupt _ h' => at_most_one_new h h'
    end).
  { intros i. unfold bind, keyframe_at.
    destruct (if (i <? 0)%Z then None else keyframes track !! Z.to_nat i); now left. }
  unfold getValueAtTime.
  destruct (length (keyframes track) =? 0)%nat; [now left|].
  destruct (scanKeyframes (keyframes track) 0 time (-1)) as [beforeIndex afterIndex].
  destruct (beforeIndex =? -1)%Z; [apply Hkf|].
  destruct (afterIndex =? -1)%Z; [apply Hkf|].
  destruct (beforeIndex =? afterIndex)%Z; [apply Hkf|].
  unfold bind at 1. unfold keyframe_at at 1.
  destruct (if (beforeIndex <? 0)%Z then None else keyframes track !! Z.to_nat beforeIndex);
    [|now left].
  cbn [ret]. unfold bind at 1. unfold keyframe_at at 1.
  destruct (if (afterIndex <? 0)%Z then None else keyframes track !! Z.to_nat afterIndex);
    [|now left].
  cbn [ret]. apply interpolate_appends.
Qed.

(** * The exporter and the state of a machine *)

Section ExportRun.
Variable JSON_text : json -> string.
Variable TextEncoder_encode : string -> list Byte.byte.
Variable btoa_bytes : list Byte.byte -> string.

Lemma serializeStateMachine_runs (sm sm' : StateMachine) :
  runs sm sm' -> serializeStateMachine sm' = serializeStateMachine sm.
Proof.
  induction 1 as [|sm' name v _ IH|sm' event sm'' result _ IH Hcheck].
  - reflexivity.
  - rewrite <- IH. reflexivity.
  - rewrite <- IH. unfold checkTransitions in Hcheck.
    destruct (scanTransitions sm' event (transitions sm')) as [[id|]|];
      [| |discriminate]; injection Hcheck as <- _; reflexivity.
Qed.

(** X30.  The export does not depend on the run-time state of the state
    machines: whatever calls of [setParameter] and [checkTransitions] the
    machines of a project went through, [exportToRiv] writes the bytes it
    wrote before them; the parameters and the current state are not
    exported. *)
Theorem exportToRiv_ignores_run (fuel : nat) (h : heap) (project : RivProject)
    (machines : list StateMachine) :
  Forall2 runs (stateMachines project) machines ->
  exportToRiv JSON_text TextEncoder_encode btoa_bytes fuel h
    (with_stateMachines project machines) =
  exportToRiv JSON_text TextEncoder_encode btoa_bytes fuel h project.
Proof.
  intros Hruns.
  assert (Hmap : map serializeStateMachine machines =
                 map serializeStateMachine (stateMachines project)).
  { induction Hruns as [|sm sm' sms sms' Hrun _ IH]; [reflexivity|].
    cbn [map]. now rewrite IH, (serializeStateMachine_runs sm sm' Hrun). }
  unfold exportToRiv, project_document, with_stateMachines.
  cbn [version artboards animations stateMachines assets]. now rewrite Hmap.
Qed.

End ExportRun.

Lemma exportToRiv_ignores_run_witness :
  Forall2 runs (stateMachines click_project)
    [setParameter (set_currentState click_machine "pressed") "armed" (PBool true)] /\
  exportToRiv (fun _ => "doc") (fun _ => []) (fun _ => EmptyString) 5 []
    (with_stateMachines click_project
       [setParameter (set_currentState click_machine "pressed") "armed" (PBool true)]) =
  exportToRiv (fun _ => "doc") (fun _ => []) (fun _ => EmptyString) 5 [] click_project.
Proof.
  assert (Hruns : Forall2 runs (stateMachines click_project)
            [setParameter (set_currentState click_machine "pressed") "armed" (PBool true)]).
  { constructor; [|constructor]. apply runs_setParameter.
    apply (runs_checkTransitions click_machine click_machine
             (Some (mkEvent "click" None None)) _ (Some "pressed")); [apply runs_start|].
    reflexivity. }
  split; [exact Hruns|].
  exact (exportToRiv_ignores_run _ _ _ 5 [] click_project _ Hruns).
Defined.
